(** * Legacy jump-destination analysis (core/vm/analysis_legacy.go)

    A shallow embedding of the packed bit vector [BitVec], of its setters
    [set1], [setN], [set8], [set16], of the query [codeSegment] and of the
    scan [codeBitmap] / [codeBitmapInternal], followed by the properties
    the specification states about them.

    Conventions of the embedding:
    - a Go [byte], [uint16] or [uint64] is a [Z]; every operation that can
      wrap in Go has its reduction ([u8], [u16], [u64]) written out;
    - the input code is a list of [Byte.byte], so that every element is a
      byte by typing; the bit vector is a list of [Z] that is read, or-ed
      and stored with the bit operations of [Z];
    - an index expression [s[i]] of Go panics out of range: reads and
      writes return [Panic] there, and the panic propagates;
    - the outer [for] loop has no syntactic bound: it is run with a fuel
      that counts its iterations, and [OutOfFuel] is a third outcome;
    - the module [Mem] gives the same functions on a memory of backing
      arrays, with slices as views and writes in place; it is shown to
      agree with the functions on lists, and carries what is said about
      mutation, aliasing and allocation. *)

From Stdlib Require Import ZArith Lia Bool Strings.Byte.
From stdpp Require Import base list.

Local Open Scope Z_scope.

(** ** Outcomes: a value, a run-time panic, or fuel exhausted *)

Inductive outcome (A : Type) : Type :=
| Ret (a : A)
| Panic
| OutOfFuel.

Arguments Ret {A} a.
Arguments Panic {A}.
Arguments OutOfFuel {A}.

Definition bind {A B : Type} (m : outcome A) (k : A → outcome B) : outcome B :=
  match m with
  | Ret a => k a
  | Panic => Panic
  | OutOfFuel => OutOfFuel
  end.

Notation "'let*' x := m 'in' k" := (bind m (fun x => k))
  (at level 10, x pattern, m at level 100, k at level 200).

(** ** Machine integers *)

Definition u8 (x : Z) : Z := x mod 2 ^ 8.
Definition u16 (x : Z) : Z := x mod 2 ^ 16.
Definition u64 (x : Z) : Z := x mod 2 ^ 64.

(** [int8(x)] for a byte [x]: reinterpretation as a signed 8-bit integer. *)
Definition int8 (x : Z) : Z :=
  let y := u8 x in if y <? 2 ^ 7 then y else y - 2 ^ 8.

(** [^a] for a byte [a]. *)
Definition not8 (a : Z) : Z := Z.lxor a 255.

(** ** Opcode constants *)

(** Modelled from the spec: the opcode table (opcodes.go) is not among the
    sources.  The push-literal family has widths 1..32 counted from the
    first push opcode, so [PUSH1 = PUSH32 - 31]. *)
Definition PUSH1 : Z := 0x60.

(** Modelled from the spec: the last opcode of the push-literal family
    (opcodes.go is not among the sources).  The comment in
    [codeBitmapInternal] says that [int8(op) > int8(PUSH32)] is always
    false, so [PUSH32] is the largest signed byte. *)
Definition PUSH32 : Z := 0x7f.

(** Modelled from the spec: the valid-jump-target opcode (opcodes.go is
    not among the sources).  Only the concrete scenarios use its value;
    the classification never looks at it. *)
Definition JUMPDEST : Z := 0x5b.

Definition set2BitsMask : Z := 0x3.
Definition set3BitsMask : Z := 0x7.
Definition set4BitsMask : Z := 0xf.
Definition set5BitsMask : Z := 0x1f.
Definition set6BitsMask : Z := 0x3f.
Definition set7BitsMask : Z := 0x7f.

(** ** The bit vector *)

Abbreviation BitVec := (list Z).

(** [bits[i]] as an r-value. *)
Definition load (bits : BitVec) (i : Z) : outcome Z :=
  match bits !! Z.to_nat i with
  | Some v => Ret v
  | None => Panic
  end.

(** [bits[i] = v]. *)
Definition store (bits : BitVec) (i : Z) (v : Z) : outcome BitVec :=
  if bool_decide (Z.to_nat i < length bits)%nat
  then Ret (<[Z.to_nat i := v]> bits)
  else Panic.

(** [bits[i] |= v]. *)
Definition or_store (bits : BitVec) (i : Z) (v : Z) : outcome BitVec :=
  let* x := load bits i in store bits i (Z.lor x v).

Definition set1 (bits : BitVec) (pos : Z) : outcome BitVec :=
  or_store bits (pos / 8) (u8 (Z.shiftl 1 (pos mod 8))).

Definition setN (bits : BitVec) (flag : Z) (pos : Z) : outcome BitVec :=
  let a := u16 (Z.shiftl flag (pos mod 8)) in
  let* bits := or_store bits (pos / 8) (u8 a) in
  let b := u8 (Z.shiftr a 8) in
  if b =? 0 then Ret bits
  else store bits (u64 (pos / 8 + 1)) b.

Definition set8 (bits : BitVec) (pos : Z) : outcome BitVec :=
  let a := u8 (Z.shiftl 0xFF (pos mod 8)) in
  let* bits := or_store bits (pos / 8) a in
  store bits (u64 (pos / 8 + 1)) (not8 a).

Definition set16 (bits : BitVec) (pos : Z) : outcome BitVec :=
  let a := u8 (Z.shiftl 0xFF (pos mod 8)) in
  let* bits := or_store bits (pos / 8) a in
  let* bits := store bits (u64 (pos / 8 + 1)) 0xFF in
  store bits (u64 (pos / 8 + 2)) (not8 a).

(** [codeSegment]: is the position in a code segment (bit unset)? *)
Definition codeSegment (bits : BitVec) (pos : Z) : outcome bool :=
  let* x := load bits (pos / 8) in
  Ret (Z.land (Z.shiftr x (pos mod 8)) 1 =? 0).

(** ** The scan *)

(** [OpCode(code[pc])]. *)
Definition opcode_at (code : list byte) (pc : Z) : outcome Z :=
  match code !! Z.to_nat pc with
  | Some b => Ret (Z.of_N (Byte.to_N b))
  | None => Panic
  end.

(** [len(code)], a Go [int]. *)
Definition len (code : list byte) : Z := Z.of_nat (length code).

(** State of the inner loops: [numbits], [pc] and the vector. *)
Definition chunk_state : Type := Z * Z * BitVec.

(** [for ; numbits >= 16; numbits -= 16 { bits.set16(pc); pc += 16 }] *)
Fixpoint loop16 (fuel : nat) (numbits pc : Z) (bits : BitVec) : outcome chunk_state :=
  if 16 <=? numbits then
    match fuel with
    | O => OutOfFuel
    | S fuel =>
        let* bits := set16 bits pc in
        loop16 fuel (u8 (numbits - 16)) (u64 (pc + 16)) bits
    end
  else Ret (numbits, pc, bits).

(** [for ; numbits >= 8; numbits -= 8 { bits.set8(pc); pc += 8 }] *)
Fixpoint loop8 (fuel : nat) (numbits pc : Z) (bits : BitVec) : outcome chunk_state :=
  if 8 <=? numbits then
    match fuel with
    | O => OutOfFuel
    | S fuel =>
        let* bits := set8 bits pc in
        loop8 fuel (u8 (numbits - 8)) (u64 (pc + 8)) bits
    end
  else Ret (numbits, pc, bits).

(** The [switch numbits] that ends an iteration. *)
Definition switch_numbits (numbits pc : Z) (bits : BitVec) : outcome (Z * BitVec) :=
  if numbits =? 1 then
    let* bits := set1 bits pc in Ret (u64 (pc + 1), bits)
  else if numbits =? 2 then
    let* bits := setN bits set2BitsMask pc in Ret (u64 (pc + 2), bits)
  else if numbits =? 3 then
    let* bits := setN bits set3BitsMask pc in Ret (u64 (pc + 3), bits)
  else if numbits =? 4 then
    let* bits := setN bits set4BitsMask pc in Ret (u64 (pc + 4), bits)
  else if numbits =? 5 then
    let* bits := setN bits set5BitsMask pc in Ret (u64 (pc + 5), bits)
  else if numbits =? 6 then
    let* bits := setN bits set6BitsMask pc in Ret (u64 (pc + 6), bits)
  else if numbits =? 7 then
    let* bits := setN bits set7BitsMask pc in Ret (u64 (pc + 7), bits)
  else Ret (pc, bits).

(** One iteration of the outer loop, entered with [pc < len(code)].  The
    two inner loops run on a counter that fits a byte and decreases by 16
    (by 8) per round, so [Z.to_nat numbits] rounds always suffice. *)
Definition loop_body (code : list byte) (pc : Z) (bits : BitVec) : outcome (Z * BitVec) :=
  let* op := opcode_at code pc in
  let pc := u64 (pc + 1) in
  if int8 op <? int8 PUSH1 then Ret (pc, bits)
  else
    let numbits := u8 (op - PUSH1 + 1) in
    let* (numbits, pc, bits) :=
      (if 8 <=? numbits then
         let* (numbits, pc, bits) := loop16 (Z.to_nat numbits) numbits pc bits in
         loop8 (Z.to_nat numbits) numbits pc bits
       else Ret (numbits, pc, bits)) in
    switch_numbits numbits pc bits.

(** [for pc := uint64(0); pc < uint64(len(code)); { ... }] from a given
    [pc]; one unit of fuel per iteration. *)
Fixpoint scan (fuel : nat) (code : list byte) (pc : Z) (bits : BitVec) : outcome BitVec :=
  if pc <? u64 (len code) then
    match fuel with
    | O => OutOfFuel
    | S fuel =>
        let* (pc, bits) := loop_body code pc bits in
        scan fuel code pc bits
    end
  else Ret bits.

Definition codeBitmapInternal (fuel : nat) (code : list byte) (bits : BitVec) : outcome BitVec :=
  scan fuel code 0 bits.

(** [make(BitVec, len(code)/8+1+4)]: a fresh zeroed array. *)
Definition make (code : list byte) : BitVec :=
  replicate (Z.to_nat (len code / 8 + 1 + 4)) 0.

Definition codeBitmap (fuel : nat) (code : list byte) : outcome BitVec :=
  codeBitmapInternal fuel code (make code).

(** ** Some code bytes by name *)

Definition bPUSH1 : byte := x60.
Definition bPUSH32 : byte := x7f.
Definition bJUMPDEST : byte := x5b.
Definition bSTOP : byte := x00.

(** ** The vector seen as bits *)

(** The byte at index [j], 0 outside the array. *)
Definition byte_at (bits : BitVec) (j : Z) : Z :=
  default 0 (bits !! Z.to_nat j).

(** The bit for code offset [i]. *)
Definition bit (bits : BitVec) (i : Z) : bool :=
  Z.testbit (byte_at bits (i / 8)) (i mod 8).

(** [i] lies in the [n] offsets that start at [pos]. *)
Definition in_span (pos n i : Z) : bool := (pos <=? i) && (i <? pos + n).

(** [new] is [old] with the [n] bits from [pos] set and nothing else
    changed. *)
Definition marks (pos n : Z) (old new : BitVec) : Prop :=
  length new = length old ∧
  ∀ i, 0 ≤ i → bit new i = bit old i || in_span pos n i.

(** No bit at or above [p] is set. *)
Definition clear_from (bits : BitVec) (p : Z) : Prop :=
  ∀ i, p ≤ i → bit bits i = false.

(** Same bits at every offset. *)
Definition same_bits (b1 b2 : BitVec) : Prop :=
  length b1 = length b2 ∧ ∀ i, 0 ≤ i → bit b1 i = bit b2 i.

(** The masks of [setN] are [2^n - 1] for [2 <= n <= 7]. *)
Definition setN_mask (n : Z) : Z := 2 ^ n - 1.

(** ** One iteration of the scan *)

(** Width of the immediate of an opcode: [op - PUSH1 + 1] for the push
    family, 0 for every other byte. *)
Definition push_width (op : Z) : Z :=
  if (PUSH1 <=? op) && (op <=? PUSH32) then op - PUSH1 + 1 else 0.

(** The opcode value of a code byte. *)
Definition op_of (b : byte) : Z := Z.of_N (Byte.to_N b).

(** ** Runs of the outer loop *)

(** [run code n pc bits pc' bits']: [n] iterations of the outer loop lead
    from [(pc, bits)] to [(pc', bits')]. *)
Inductive run (code : list byte) : nat → Z → BitVec → Z → BitVec → Prop :=
| run_stop pc bits : run code 0 pc bits pc bits
| run_iter n pc bits pc1 bits1 pc2 bits2 :
    pc < u64 (len code) →
    loop_body code pc bits = Ret (pc1, bits1) →
    run code n pc1 bits1 pc2 bits2 →
    run code (S n) pc bits pc2 bits2.

(** The states the scan of [codeBitmap] goes through. *)
Definition reach (code : list byte) (pc : Z) (bits : BitVec) : Prop :=
  ∃ n, run code n 0 (make code) pc bits.

(** The offsets whose byte the scan evaluates as the current opcode. *)
Definition evaluated (code : list byte) (pc : Z) : Prop :=
  pc < u64 (len code) ∧ ∃ bits, reach code pc bits.

(** The loop condition fails: [pc >= len(code)]. *)
Definition exits (code : list byte) (pc : Z) : Prop := ¬ pc < u64 (len code).

(** The invariant of the outer loop for a vector allocated by
    [codeBitmap]. *)
Definition scan_inv (code : list byte) (pc : Z) (bits : BitVec) : Prop :=
  0 ≤ pc ≤ len code + 32 ∧
  Z.of_nat (length bits) = len code / 8 + 1 + 4 ∧
  clear_from bits pc.

(** ** The specification's scan *)

(** Positions of the cursor of the scan of the specification: it starts
    at 0 and, from a position inside the code, advances by the push width
    of the byte there plus one. *)
Inductive scanned (code : list byte) : Z → Prop :=
| scanned_first : scanned code 0
| scanned_next pc b :
    scanned code pc → code !! Z.to_nat pc = Some b →
    scanned code (pc + push_width (op_of b) + 1).

(** Offsets that the specification classifies as data: those in the span
    [pc+1 .. pc+w] of a cursor position [pc] whose byte has push width
    [w]. *)
Definition data_offset (code : list byte) (i : Z) : Prop :=
  ∃ pc b, scanned code pc ∧ code !! Z.to_nat pc = Some b ∧
          pc + 1 ≤ i ≤ pc + push_width (op_of b).

(** Marking [w] bits from [pos], one [set1] per bit. *)
Fixpoint mark_each (w : nat) (bits : BitVec) (pos : Z) : outcome BitVec :=
  match w with
  | O => Ret bits
  | S w => let* bits := set1 bits pos in mark_each w bits (pos + 1)
  end.

(** The reference scan, written after the algorithm of the specification:
    read [code[pc]]; for a push of width [w] mark the [w] offsets
    [pc+1 .. pc+w], each on its own, and advance by [w + 1]; otherwise
    advance by 1; stop when [pc >= len(code)]. *)
Fixpoint reference_scan (fuel : nat) (code : list byte) (pc : Z) (bits : BitVec) : outcome BitVec :=
  if pc <? len code then
    match fuel with
    | O => OutOfFuel
    | S fuel =>
        let* op := opcode_at code pc in
        let w := push_width op in
        let* bits := mark_each (Z.to_nat w) bits (pc + 1) in
        reference_scan fuel code (pc + w + 1) bits
    end
  else Ret bits.

Definition classify_reference (fuel : nat) (code : list byte) : outcome BitVec :=
  reference_scan fuel code 0 (make code).


(** ** A vector that is not zeroed *)




(** ** The same code on a memory of arrays

    In Go a slice is a view of a backing array, and the methods of
    [BitVec] write that array in place.  Here the memory is the list of
    all backing arrays; a slice names an array, an offset and a length;
    every function threads the memory, which survives a panic with the
    writes made so far.  [make] appends a new zeroed array, so the array
    it returns is none of the arrays that exist. *)

Module Mem.

Abbreviation heap := (list (list Z)).

Record slice : Type := Slice { base : nat; offset : Z; extent : Z }.

Definition M (A : Type) : Type := heap → heap * outcome A.

Definition ret {A : Type} (a : A) : M A := λ h, (h, Ret a).

Definition panic {A : Type} : M A := λ h, (h, Panic).

Definition out_of_fuel {A : Type} : M A := λ h, (h, OutOfFuel).

Definition bind {A B : Type} (m : M A) (k : A → M B) : M B := λ h,
  match m h with
  | (h', Ret a) => k a h'
  | (h', Panic) => (h', Panic)
  | (h', OutOfFuel) => (h', OutOfFuel)
  end.

Notation "'let!' x := m 'in' k" := (bind m (fun x => k))
  (at level 10, x pattern, m at level 100, k at level 200).

(** [len(s)]. *)
Definition len (s : slice) : Z := extent s.

(** The address of [s[i]] in the backing array, for an index [i] of type
    [uint64]. *)
Definition address (s : slice) (i : Z) : nat := (Z.to_nat (offset s) + Z.to_nat i)%nat.

(** [s[i]] as an r-value: checked against [len(s)]. *)
Definition index (s : slice) (i : Z) : M Z := λ h,
  if i <? len s then
    match h !! base s with
    | Some arr =>
        match arr !! address s i with
        | Some v => (h, Ret v)
        | None => (h, Panic)
        end
    | None => (h, Panic)
    end
  else (h, Panic).

(** [s[i] = v]: the backing array is written in place. *)
Definition assign (s : slice) (i : Z) (v : Z) : M unit := λ h,
  if i <? len s then
    match h !! base s with
    | Some arr =>
        if bool_decide (address s i < length arr)%nat
        then (<[base s := <[address s i := v]> arr]> h, Ret tt)
        else (h, Panic)
    | None => (h, Panic)
    end
  else (h, Panic).

(** [s[i] |= v]. *)
Definition or_assign (s : slice) (i : Z) (v : Z) : M unit :=
  let! x := index s i in assign s i (Z.lor x v).

(** [make(BitVec, n)]. *)
Definition make (n : Z) : M slice := λ h,
  (h ++ [replicate (Z.to_nat n) 0], Ret (Slice (length h) 0 n)).

Definition set1 (bits : slice) (pos : Z) : M unit :=
  or_assign bits (pos / 8) (u8 (Z.shiftl 1 (pos mod 8))).

Definition setN (bits : slice) (flag : Z) (pos : Z) : M unit :=
  let a := u16 (Z.shiftl flag (pos mod 8)) in
  let! _ := or_assign bits (pos / 8) (u8 a) in
  let b := u8 (Z.shiftr a 8) in
  if b =? 0 then ret tt
  else assign bits (u64 (pos / 8 + 1)) b.

Definition set8 (bits : slice) (pos : Z) : M unit :=
  let a := u8 (Z.shiftl 0xFF (pos mod 8)) in
  let! _ := or_assign bits (pos / 8) a in
  assign bits (u64 (pos / 8 + 1)) (not8 a).

Definition set16 (bits : slice) (pos : Z) : M unit :=
  let a := u8 (Z.shiftl 0xFF (pos mod 8)) in
  let! _ := or_assign bits (pos / 8) a in
  let! _ := assign bits (u64 (pos / 8 + 1)) 0xFF in
  assign bits (u64 (pos / 8 + 2)) (not8 a).

Definition codeSegment (bits : slice) (pos : Z) : M bool :=
  let! x := index bits (pos / 8) in
  ret (Z.land (Z.shiftr x (pos mod 8)) 1 =? 0).

Fixpoint loop16 (fuel : nat) (numbits pc : Z) (bits : slice) : M (Z * Z) :=
  if 16 <=? numbits then
    match fuel with
    | O => out_of_fuel
    | S fuel =>
        let! _ := set16 bits pc in
        loop16 fuel (u8 (numbits - 16)) (u64 (pc + 16)) bits
    end
  else ret (numbits, pc).

Fixpoint loop8 (fuel : nat) (numbits pc : Z) (bits : slice) : M (Z * Z) :=
  if 8 <=? numbits then
    match fuel with
    | O => out_of_fuel
    | S fuel =>
        let! _ := set8 bits pc in
        loop8 fuel (u8 (numbits - 8)) (u64 (pc + 8)) bits
    end
  else ret (numbits, pc).

Definition switch_numbits (numbits pc : Z) (bits : slice) : M Z :=
  if numbits =? 1 then
    let! _ := set1 bits pc in ret (u64 (pc + 1))
  else if numbits =? 2 then
    let! _ := setN bits set2BitsMask pc in ret (u64 (pc + 2))
  else if numbits =? 3 then
    let! _ := setN bits set3BitsMask pc in ret (u64 (pc + 3))
  else if numbits =? 4 then
    let! _ := setN bits set4BitsMask pc in ret (u64 (pc + 4))
  else if numbits =? 5 then
    let! _ := setN bits set5BitsMask pc in ret (u64 (pc + 5))
  else if numbits =? 6 then
    let! _ := setN bits set6BitsMask pc in ret (u64 (pc + 6))
  else if numbits =? 7 then
    let! _ := setN bits set7BitsMask pc in ret (u64 (pc + 7))
  else ret pc.

(** One iteration; [code[pc]] is read from the memory of the moment. *)
Definition loop_body (code bits : slice) (pc : Z) : M Z :=
  let! op := index code pc in
  let pc := u64 (pc + 1) in
  if int8 op <? int8 PUSH1 then ret pc
  else
    let numbits := u8 (op - PUSH1 + 1) in
    let! (numbits, pc) :=
      (if 8 <=? numbits then
         let! (numbits, pc) := loop16 (Z.to_nat numbits) numbits pc bits in
         loop8 (Z.to_nat numbits) numbits pc bits
       else ret (numbits, pc)) in
    switch_numbits numbits pc bits.

Fixpoint scan (fuel : nat) (code bits : slice) (pc : Z) : M unit :=
  if pc <? u64 (len code) then
    match fuel with
    | O => out_of_fuel
    | S fuel =>
        let! pc := loop_body code bits pc in
        scan fuel code bits pc
    end
  else ret tt.

Definition codeBitmapInternal (fuel : nat) (code bits : slice) : M slice :=
  let! _ := scan fuel code bits 0 in ret bits.

Definition codeBitmap (fuel : nat) (code : slice) : M slice :=
  let! bits := make (len code / 8 + 1 + 4) in
  codeBitmapInternal fuel code bits.

(** The slice [c] is a view of the bytes [code] in the memory [h]. *)
Definition holds (h : heap) (c : slice) (code : list byte) : Prop :=
  len c = Z.of_nat (length code) ∧ 0 ≤ offset c ∧
  ∃ arr, h !! base c = Some arr ∧
    ∀ i : nat, (i < length code)%nat →
      arr !! (Z.to_nat (offset c) + i)%nat = op_of <$> code !! i.

(** The slice [b] is the whole of an array, whose content is [bits]. *)
Definition whole (h : heap) (b : slice) (bits : list Z) : Prop :=
  h !! base b = Some bits ∧ offset b = 0 ∧ extent b = Z.of_nat (length bits).

(** [h'] is [h] except, possibly, for the content of array [r]. *)
Definition frame (r : nat) (h h' : heap) : Prop :=
  length h' = length h ∧ ∀ a, a ≠ r → h' !! a = h !! a.

(** A run on the memory agrees with a run of the functions on lists:
    only the array of [b] changes and it keeps its length; a returned
    value and the content of the array are those of the list run, and a
    panic or an exhausted fuel is the same on both sides. *)
Definition agrees {A X : Type} (b : slice) (h : heap) (bits : list Z)
    (res : heap * outcome A) (pure : outcome X)
    (val : X → A) (vec : X → list Z) : Prop :=
  frame (base b) h res.1 ∧
  (∃ bits', whole res.1 b bits' ∧ length bits' = length bits) ∧
  match pure with
  | Ret x => res.2 = Ret (val x) ∧ res.1 !! base b = Some (vec x)
  | Panic => res.2 = Panic
  | OutOfFuel => res.2 = OutOfFuel
  end.

End Mem.


(** * Properties *)

(** ** Sanity checks on concrete programs *)

Example scenario_A :
  codeBitmap 3 [bPUSH1; xff; bJUMPDEST] = Ret [2; 0; 0; 0; 0].
Proof. vm_compute. reflexivity. Qed.

(** A truncated [PUSH1] and a final [PUSH32] write into the padding. *)
Example scenario_C : codeBitmap 1 [bPUSH1] = Ret [2; 0; 0; 0; 0].
Proof. vm_compute. reflexivity. Qed.

Example final_push32 :
  codeBitmap 1 [bPUSH32] = Ret [254; 255; 255; 255; 1].
Proof. vm_compute. reflexivity. Qed.

(** With one byte less than [codeBitmap] allocates, the same scan
    panics. *)
Example final_push32_short_array :
  codeBitmapInternal 1 [bPUSH32] [0; 0; 0; 0] = Panic.
Proof. vm_compute. reflexivity. Qed.

(** The second store of [set8] is a plain store: on a vector that is not
    clear above [pos] it erases a bit. *)
Example set8_plain_store : set8 [0; 1; 0] 0 = Ret [255; 0; 0].
Proof. vm_compute. reflexivity. Qed.

(** Scenario B: a [PUSH32] whose immediate holds the JUMPDEST value at
    offset 5, followed by a JUMPDEST at offset 33. *)
Example scenario_B :
  let code := bPUSH32 :: (replicate 4 xff ++ bJUMPDEST :: replicate 27 xff) ++ [bJUMPDEST] in
  code !! 5%nat = Some bJUMPDEST ∧ code !! 33%nat = Some bJUMPDEST ∧
  ∃ bits, codeBitmap 34 code = Ret bits ∧
          codeSegment bits 0 = Ret true ∧
          codeSegment bits 5 = Ret false ∧
          codeSegment bits 33 = Ret true.
Proof.
  split; [reflexivity|]. split; [reflexivity|].
  eexists. split; [vm_compute; reflexivity|].
  split; [reflexivity|]. split; reflexivity.
Qed.

Example named_bytes :
  op_of bPUSH1 = PUSH1 ∧ op_of bPUSH32 = PUSH32 ∧ op_of bJUMPDEST = JUMPDEST ∧
  PUSH32 = PUSH1 + 31 ∧ int8 PUSH32 = 2 ^ 7 - 1.
Proof. repeat split. Qed.

(** One iteration too few: the loop has not exited. *)
Example out_of_fuel : codeBitmap 1 [bSTOP; bSTOP] = OutOfFuel.
Proof. vm_compute. reflexivity. Qed.

(** ** Proof tools *)

Ltac split8 k :=
  let H := fresh "Hcase" in
  assert (k = 0 ∨ k = 1 ∨ k = 2 ∨ k = 3 ∨ k = 4 ∨ k = 5 ∨ k = 6 ∨ k = 7)
    as H by lia;
  destruct H as [->|[->|[->|[->|[->|[->|[->| ->]]]]]]].

Ltac bool_cases :=
  repeat match goal with
    | |- context [?a <? ?b] => destruct (Z.ltb_spec a b)
    | |- context [?a <=? ?b] => destruct (Z.leb_spec a b)
    | |- context [?a =? ?b] => destruct (Z.eqb_spec a b)
    end;
  simpl; try reflexivity; try (exfalso; lia); try lia.

Lemma u64_small x : 0 ≤ x < 2 ^ 64 → u64 x = x.
Proof. intros H. unfold u64. apply Z.mod_small. exact H. Qed.

Lemma u8_small x : 0 ≤ x < 2 ^ 8 → u8 x = x.
Proof. intros H. unfold u8. apply Z.mod_small. exact H. Qed.

(** *** Masks *)

Lemma mask1_bit k m : 0 ≤ k < 8 → 0 ≤ m < 8 →
  Z.testbit (u8 (Z.shiftl 1 k)) m = (m =? k).
Proof. intros Hk Hm. split8 k; split8 m; reflexivity. Qed.

Lemma mask8_bit k m : 0 ≤ k < 8 → 0 ≤ m < 8 →
  Z.testbit (u8 (Z.shiftl 255 k)) m = (k <=? m).
Proof. intros Hk Hm. split8 k; split8 m; reflexivity. Qed.

Lemma mask8_not_bit k m : 0 ≤ k < 8 → 0 ≤ m < 8 →
  Z.testbit (not8 (u8 (Z.shiftl 255 k))) m = (m <? k).
Proof. intros Hk Hm. split8 k; split8 m; reflexivity. Qed.

Lemma full_bit m : 0 ≤ m < 8 → Z.testbit 255 m = true.
Proof. intros Hm. split8 m; reflexivity. Qed.

Lemma maskN_low_bit n k m : 2 ≤ n ≤ 7 → 0 ≤ k < 8 → 0 ≤ m < 8 →
  Z.testbit (u8 (u16 (Z.shiftl (setN_mask n) k))) m
  = (k <=? m) && (m <? k + n).
Proof.
  intros Hn Hk Hm.
  assert (n = 2 ∨ n = 3 ∨ n = 4 ∨ n = 5 ∨ n = 6 ∨ n = 7) as Hc by lia.
  destruct Hc as [->|[->|[->|[->|[->| ->]]]]]; split8 k; split8 m; reflexivity.
Qed.

Lemma maskN_high_bit n k m : 2 ≤ n ≤ 7 → 0 ≤ k < 8 → 0 ≤ m < 8 →
  Z.testbit (u8 (Z.shiftr (u16 (Z.shiftl (setN_mask n) k)) 8)) m
  = (m + 8 <? k + n).
Proof.
  intros Hn Hk Hm.
  assert (n = 2 ∨ n = 3 ∨ n = 4 ∨ n = 5 ∨ n = 6 ∨ n = 7) as Hc by lia.
  destruct Hc as [->|[->|[->|[->|[->| ->]]]]]; split8 k; split8 m; reflexivity.
Qed.

Lemma maskN_high_zero n k : 2 ≤ n ≤ 7 → 0 ≤ k < 8 →
  (u8 (Z.shiftr (u16 (Z.shiftl (setN_mask n) k)) 8) =? 0) = (k + n <=? 8).
Proof.
  intros Hn Hk.
  assert (n = 2 ∨ n = 3 ∨ n = 4 ∨ n = 5 ∨ n = 6 ∨ n = 7) as Hc by lia.
  destruct Hc as [->|[->|[->|[->|[->| ->]]]]]; split8 k; reflexivity.
Qed.

(** *** Reads and writes *)

Lemma load_ok (bits : BitVec) j :
  0 ≤ j < Z.of_nat (length bits) → load bits j = Ret (byte_at bits j).
Proof.
  intros Hj. unfold load, byte_at.
  destruct (lookup_lt_is_Some_2 bits (Z.to_nat j)) as [v Hv]; [lia|].
  rewrite Hv. reflexivity.
Qed.

Lemma store_ok (bits : BitVec) j v :
  0 ≤ j < Z.of_nat (length bits) →
  store bits j v = Ret (<[Z.to_nat j := v]> bits).
Proof.
  intros Hj. unfold store. rewrite bool_decide_eq_true_2; [reflexivity | lia].
Qed.

Lemma byte_at_insert (bits : BitVec) j v j' :
  0 ≤ j < Z.of_nat (length bits) → 0 ≤ j' →
  byte_at (<[Z.to_nat j := v]> bits) j' = if j' =? j then v else byte_at bits j'.
Proof.
  intros Hj Hj'. unfold byte_at.
  destruct (Z.eqb_spec j' j) as [->|Hne].
  - rewrite list_lookup_insert_eq by lia. reflexivity.
  - rewrite list_lookup_insert_ne by lia. reflexivity.
Qed.

Lemma bit_insert (bits : BitVec) j v i :
  0 ≤ j < Z.of_nat (length bits) → 0 ≤ i →
  bit (<[Z.to_nat j := v]> bits) i
  = if i / 8 =? j then Z.testbit v (i mod 8) else bit bits i.
Proof.
  intros Hj Hi. unfold bit.
  rewrite byte_at_insert by (try apply Z.div_pos; lia).
  destruct (i / 8 =? j); reflexivity.
Qed.

Lemma or_store_ok (bits : BitVec) j v :
  0 ≤ j < Z.of_nat (length bits) →
  or_store bits j v = Ret (<[Z.to_nat j := Z.lor (byte_at bits j) v]> bits).
Proof.
  intros Hj. unfold or_store. rewrite load_ok by exact Hj. simpl.
  apply store_ok. exact Hj.
Qed.

Lemma bit_or_insert (bits : BitVec) j v i :
  0 ≤ j < Z.of_nat (length bits) → 0 ≤ i →
  bit (<[Z.to_nat j := Z.lor (byte_at bits j) v]> bits) i
  = if i / 8 =? j then bit bits i || Z.testbit v (i mod 8) else bit bits i.
Proof.
  intros Hj Hi. rewrite bit_insert by assumption.
  destruct (Z.eqb_spec (i / 8) j) as [<-|Hne]; [|reflexivity].
  rewrite Z.lor_spec. reflexivity.
Qed.

(** *** What each setter does to the bits *)

Lemma set1_marks (bits : BitVec) pos :
  0 ≤ pos → pos / 8 < Z.of_nat (length bits) →
  ∃ bits', set1 bits pos = Ret bits' ∧ marks pos 1 bits bits'.
Proof.
  intros Hpos Hin.
  assert (0 ≤ pos / 8) by (apply Z.div_pos; lia).
  unfold set1. rewrite or_store_ok by lia.
  eexists. split; [reflexivity|]. split; [apply length_insert|].
  intros i Hi. rewrite bit_or_insert by lia. unfold in_span.
  pose proof (Z.div_mod i 8 ltac:(lia)).
  pose proof (Z.div_mod pos 8 ltac:(lia)).
  pose proof (Z.mod_pos_bound i 8 ltac:(lia)).
  pose proof (Z.mod_pos_bound pos 8 ltac:(lia)).
  destruct (Z.eqb_spec (i / 8) (pos / 8)) as [He|Hne].
  - rewrite mask1_bit by lia. f_equal. bool_cases.
  - replace ((pos <=? i) && (i <? pos + 1)) with false;
      [rewrite orb_false_r; reflexivity|].
    symmetry. bool_cases.
Qed.

Lemma set8_marks (bits : BitVec) pos :
  0 ≤ pos → (pos + 8) / 8 < Z.of_nat (length bits) →
  Z.of_nat (length bits) < 2 ^ 61 → clear_from bits pos →
  ∃ bits', set8 bits pos = Ret bits' ∧ marks pos 8 bits bits'.
Proof.
  intros Hpos Hin Hlen Hclear.
  pose proof (Z.div_mod pos 8 ltac:(lia)).
  pose proof (Z.mod_pos_bound pos 8 ltac:(lia)).
  assert (0 ≤ pos / 8) by (apply Z.div_pos; lia).
  assert ((pos + 8) / 8 = pos / 8 + 1) as Hq
    by (replace (pos + 8) with (pos + 1 * 8) by lia;
        apply Z.div_add; lia).
  unfold set8. rewrite or_store_ok by lia. simpl.
  rewrite u64_small by lia.
  rewrite store_ok by (rewrite length_insert; lia).
  eexists. split; [reflexivity|]. split; [rewrite !length_insert; reflexivity|].
  intros i Hi.
  rewrite bit_insert by (rewrite ?length_insert; lia).
  rewrite bit_or_insert by lia. unfold in_span.
  pose proof (Z.div_mod i 8 ltac:(lia)).
  pose proof (Z.mod_pos_bound i 8 ltac:(lia)).
  destruct (Z.eqb_spec (i / 8) (pos / 8 + 1)) as [He|Hne].
  - rewrite mask8_not_bit by lia. rewrite Hclear by lia. simpl. bool_cases.
  - destruct (Z.eqb_spec (i / 8) (pos / 8)) as [He'|Hne'].
    + rewrite mask8_bit by lia. f_equal. bool_cases.
    + replace ((pos <=? i) && (i <? pos + 8)) with false;
        [rewrite orb_false_r; reflexivity|].
      symmetry. bool_cases.
Qed.

Lemma set16_marks (bits : BitVec) pos :
  0 ≤ pos → (pos + 16) / 8 < Z.of_nat (length bits) →
  Z.of_nat (length bits) < 2 ^ 61 → clear_from bits pos →
  ∃ bits', set16 bits pos = Ret bits' ∧ marks pos 16 bits bits'.
Proof.
  intros Hpos Hin Hlen Hclear.
  pose proof (Z.div_mod pos 8 ltac:(lia)).
  pose proof (Z.mod_pos_bound pos 8 ltac:(lia)).
  assert (0 ≤ pos / 8) by (apply Z.div_pos; lia).
  assert ((pos + 16) / 8 = pos / 8 + 2) as Hq
    by (replace (pos + 16) with (pos + 2 * 8) by lia;
        apply Z.div_add; lia).
  unfold set16. rewrite or_store_ok by lia. simpl.
  rewrite !u64_small by lia.
  rewrite store_ok by (rewrite length_insert; lia). simpl.
  rewrite store_ok by (rewrite !length_insert; lia).
  eexists. split; [reflexivity|]. split; [rewrite !length_insert; reflexivity|].
  intros i Hi.
  do 2 (rewrite bit_insert by (rewrite ?length_insert; lia)).
  rewrite bit_or_insert by lia. unfold in_span.
  pose proof (Z.div_mod i 8 ltac:(lia)).
  pose proof (Z.mod_pos_bound i 8 ltac:(lia)).
  destruct (Z.eqb_spec (i / 8) (pos / 8 + 2)) as [He|Hne].
  - rewrite mask8_not_bit by lia. rewrite Hclear by lia. simpl. bool_cases.
  - destruct (Z.eqb_spec (i / 8) (pos / 8 + 1)) as [He1|Hne1].
    + rewrite full_bit by lia. rewrite Hclear by lia. simpl. bool_cases.
    + destruct (Z.eqb_spec (i / 8) (pos / 8)) as [He'|Hne'].
      * rewrite mask8_bit by lia. f_equal. bool_cases.
      * replace ((pos <=? i) && (i <? pos + 16)) with false;
          [rewrite orb_false_r; reflexivity|].
        symmetry. bool_cases.
Qed.

Lemma setN_marks (bits : BitVec) n pos :
  2 ≤ n ≤ 7 →
  0 ≤ pos → (pos + n) / 8 < Z.of_nat (length bits) →
  Z.of_nat (length bits) < 2 ^ 61 → clear_from bits pos →
  ∃ bits', setN bits (setN_mask n) pos = Ret bits' ∧ marks pos n bits bits'.
Proof.
  intros Hn Hpos Hin Hlen Hclear.
  pose proof (Z.div_mod pos 8 ltac:(lia)).
  pose proof (Z.mod_pos_bound pos 8 ltac:(lia)).
  assert (0 ≤ pos / 8) by (apply Z.div_pos; lia).
  assert (pos / 8 ≤ (pos + n) / 8) by (apply Z.div_le_mono; lia).
  unfold setN. rewrite or_store_ok by lia. simpl.
  rewrite maskN_high_zero by lia.
  destruct (Z.leb_spec (pos mod 8 + n) 8) as [Hfit|Hspill].
  - eexists. split; [reflexivity|]. split; [rewrite !length_insert; reflexivity|].
    intros i Hi. rewrite bit_or_insert by lia. unfold in_span.
    pose proof (Z.div_mod i 8 ltac:(lia)).
    pose proof (Z.mod_pos_bound i 8 ltac:(lia)).
    destruct (Z.eqb_spec (i / 8) (pos / 8)) as [He'|Hne'].
    + rewrite maskN_low_bit by lia. f_equal. bool_cases.
    + replace ((pos <=? i) && (i <? pos + n)) with false;
        [rewrite orb_false_r; reflexivity|].
      symmetry. bool_cases.
  - assert ((pos + n) / 8 = pos / 8 + 1) as Hq.
    { symmetry. apply (Z.div_unique _ _ _ (pos mod 8 + n - 8)); lia. }
    rewrite u64_small by lia.
    rewrite store_ok by (rewrite length_insert; lia).
    eexists. split; [reflexivity|]. split; [rewrite !length_insert; reflexivity|].
    intros i Hi.
    rewrite bit_insert by (rewrite ?length_insert; lia).
    rewrite bit_or_insert by lia. unfold in_span.
    pose proof (Z.div_mod i 8 ltac:(lia)).
    pose proof (Z.mod_pos_bound i 8 ltac:(lia)).
    destruct (Z.eqb_spec (i / 8) (pos / 8 + 1)) as [He|Hne].
    + rewrite maskN_high_bit by lia. rewrite Hclear by lia. simpl. bool_cases.
    + destruct (Z.eqb_spec (i / 8) (pos / 8)) as [He'|Hne'].
      * rewrite maskN_low_bit by lia. f_equal. bool_cases.
      * replace ((pos <=? i) && (i <? pos + n)) with false;
          [rewrite orb_false_r; reflexivity|].
        symmetry. bool_cases.
Qed.

(** *** Composition of marked spans *)

Lemma marks_none pos (bits : BitVec) : marks pos 0 bits bits.
Proof.
  split; [reflexivity|]. intros i Hi. unfold in_span.
  replace ((pos <=? i) && (i <? pos + 0)) with false;
    [rewrite orb_false_r; reflexivity|].
  symmetry. bool_cases.
Qed.

Lemma marks_trans pos n m (b0 b1 b2 : BitVec) :
  0 ≤ n → 0 ≤ m →
  marks pos n b0 b1 → marks (pos + n) m b1 b2 → marks pos (n + m) b0 b2.
Proof.
  intros Hn Hm [Hl1 H1] [Hl2 H2]. split; [congruence|].
  intros i Hi. rewrite H2, H1 by assumption. rewrite <- orb_assoc. f_equal.
  unfold in_span. bool_cases.
Qed.

Lemma marks_clear pos n (b0 b1 : BitVec) :
  0 ≤ pos → 0 ≤ n →
  marks pos n b0 b1 → clear_from b0 pos → clear_from b1 (pos + n).
Proof.
  intros Hpos Hn [_ H] Hclear i Hi.
  rewrite H by lia. rewrite Hclear by lia. unfold in_span. bool_cases.
Qed.

Lemma marks_length pos n (b0 b1 : BitVec) :
  marks pos n b0 b1 → length b1 = length b0.
Proof. intros [H _]. exact H. Qed.

(** *** The inner loops *)

Lemma loop16_marks fuel : ∀ numbits pc (bits : BitVec),
  0 ≤ numbits < 256 → numbits ≤ Z.of_nat fuel →
  0 ≤ pc → (pc + numbits) / 8 < Z.of_nat (length bits) →
  Z.of_nat (length bits) < 2 ^ 61 → clear_from bits pc →
  ∃ r bits',
    loop16 fuel numbits pc bits = Ret (r, pc + (numbits - r), bits') ∧
    0 ≤ r < 16 ∧ r ≤ numbits ∧ marks pc (numbits - r) bits bits'.
Proof.
  induction fuel as [|fuel IH]; intros numbits pc bits Hnb Hfuel Hpc Hin Hlen Hclear.
  - exists numbits, bits. simpl.
    destruct (Z.leb_spec 16 numbits); [lia|].
    replace (numbits - numbits) with 0 by lia. rewrite Z.add_0_r.
    repeat split; try lia. apply marks_none.
  - simpl. destruct (Z.leb_spec 16 numbits) as [Hge|Hlt].
    + assert ((pc + 16) / 8 ≤ (pc + numbits) / 8) by (apply Z.div_le_mono; lia).
      assert (pc + numbits < 2 ^ 64).
      { pose proof (Z.div_mod (pc + numbits) 8 ltac:(lia)).
        pose proof (Z.mod_pos_bound (pc + numbits) 8 ltac:(lia)). lia. }
      destruct (set16_marks bits pc) as (bits1 & Hset & Hm1); try lia; try assumption.
      rewrite Hset. simpl.
      rewrite u8_small by lia. rewrite u64_small by lia.
      destruct (IH (numbits - 16) (pc + 16) bits1) as (r & bits2 & Hloop & Hr & Hrn & Hm2).
      * lia.
      * lia.
      * lia.
      * rewrite (marks_length _ _ _ _ Hm1).
        replace (pc + 16 + (numbits - 16)) with (pc + numbits) by lia. exact Hin.
      * rewrite (marks_length _ _ _ _ Hm1). exact Hlen.
      * apply (marks_clear pc 16 bits bits1); [lia|lia|exact Hm1|exact Hclear].
      * exists r, bits2. rewrite Hloop.
        replace (pc + 16 + (numbits - 16 - r)) with (pc + (numbits - r)) by lia.
        repeat split; try lia.
        -- rewrite (proj1 Hm2). apply (proj1 Hm1).
        -- replace (numbits - r) with (16 + (numbits - 16 - r)) by lia.
           apply (marks_trans pc 16 (numbits - 16 - r) bits bits1 bits2);
             [lia|lia|exact Hm1|exact Hm2].
    + exists numbits, bits.
      replace (numbits - numbits) with 0 by lia. rewrite Z.add_0_r.
      repeat split; try lia. apply marks_none.
Qed.

Lemma loop8_marks fuel : ∀ numbits pc (bits : BitVec),
  0 ≤ numbits < 256 → numbits ≤ Z.of_nat fuel →
  0 ≤ pc → (pc + numbits) / 8 < Z.of_nat (length bits) →
  Z.of_nat (length bits) < 2 ^ 61 → clear_from bits pc →
  ∃ r bits',
    loop8 fuel numbits pc bits = Ret (r, pc + (numbits - r), bits') ∧
    0 ≤ r < 8 ∧ r ≤ numbits ∧ marks pc (numbits - r) bits bits'.
Proof.
  induction fuel as [|fuel IH]; intros numbits pc bits Hnb Hfuel Hpc Hin Hlen Hclear.
  - exists numbits, bits. simpl.
    destruct (Z.leb_spec 8 numbits); [lia|].
    replace (numbits - numbits) with 0 by lia. rewrite Z.add_0_r.
    repeat split; try lia. apply marks_none.
  - simpl. destruct (Z.leb_spec 8 numbits) as [Hge|Hlt].
    + assert ((pc + 8) / 8 ≤ (pc + numbits) / 8) by (apply Z.div_le_mono; lia).
      assert (pc + numbits < 2 ^ 64).
      { pose proof (Z.div_mod (pc + numbits) 8 ltac:(lia)).
        pose proof (Z.mod_pos_bound (pc + numbits) 8 ltac:(lia)). lia. }
      destruct (set8_marks bits pc) as (bits1 & Hset & Hm1); try lia; try assumption.
      rewrite Hset. simpl.
      rewrite u8_small by lia. rewrite u64_small by lia.
      destruct (IH (numbits - 8) (pc + 8) bits1) as (r & bits2 & Hloop & Hr & Hrn & Hm2).
      * lia.
      * lia.
      * lia.
      * rewrite (marks_length _ _ _ _ Hm1).
        replace (pc + 8 + (numbits - 8)) with (pc + numbits) by lia. exact Hin.
      * rewrite (marks_length _ _ _ _ Hm1). exact Hlen.
      * apply (marks_clear pc 8 bits bits1); [lia|lia|exact Hm1|exact Hclear].
      * exists r, bits2. rewrite Hloop.
        replace (pc + 8 + (numbits - 8 - r)) with (pc + (numbits - r)) by lia.
        repeat split; try lia.
        -- rewrite (proj1 Hm2). apply (proj1 Hm1).
        -- replace (numbits - r) with (8 + (numbits - 8 - r)) by lia.
           apply (marks_trans pc 8 (numbits - 8 - r) bits bits1 bits2);
             [lia|lia|exact Hm1|exact Hm2].
    + exists numbits, bits.
      replace (numbits - numbits) with 0 by lia. rewrite Z.add_0_r.
      repeat split; try lia. apply marks_none.
Qed.

(** *** The closing switch *)

Lemma switch_marks r pc (bits : BitVec) :
  0 ≤ r < 8 → 0 ≤ pc → (pc + r) / 8 < Z.of_nat (length bits) →
  Z.of_nat (length bits) < 2 ^ 61 → clear_from bits pc →
  ∃ bits', switch_numbits r pc bits = Ret (pc + r, bits') ∧ marks pc r bits bits'.
Proof.
  intros Hr Hpc Hin Hlen Hclear.
  assert (pc + r < 2 ^ 64).
  { pose proof (Z.div_mod (pc + r) 8 ltac:(lia)).
    pose proof (Z.mod_pos_bound (pc + r) 8 ltac:(lia)). lia. }
  assert (pc / 8 ≤ (pc + r) / 8) by (apply Z.div_le_mono; lia).
  assert (∀ n, 2 ≤ n ≤ 7 → r = n →
          ∃ bits', (let* bits := setN bits (setN_mask n) pc in Ret (u64 (pc + n), bits))
                   = Ret (pc + n, bits') ∧ marks pc n bits bits') as HN.
  { intros n Hn ->.
    destruct (setN_marks bits n pc) as (bits' & Hset & Hm); try lia; try assumption.
    exists bits'. rewrite Hset. simpl. rewrite u64_small by lia. split; [reflexivity|exact Hm]. }
  unfold switch_numbits. split8 r; simpl.
  - exists bits. rewrite Z.add_0_r. split; [reflexivity|apply marks_none].
  - destruct (set1_marks bits pc) as (bits' & Hset & Hm); try lia.
    exists bits'. rewrite Hset. simpl. rewrite u64_small by lia. split; [reflexivity|exact Hm].
  - apply (HN 2); [lia|reflexivity].
  - apply (HN 3); [lia|reflexivity].
  - apply (HN 4); [lia|reflexivity].
  - apply (HN 5); [lia|reflexivity].
  - apply (HN 6); [lia|reflexivity].
  - apply (HN 7); [lia|reflexivity].
Qed.

Lemma op_of_range b : 0 ≤ op_of b < 256.
Proof. unfold op_of. pose proof (Byte.to_N_bounded b). lia. Qed.

Lemma push_width_range op : 0 ≤ push_width op ≤ 32.
Proof. unfold push_width, PUSH1, PUSH32. bool_cases. Qed.

Lemma int8_test op : 0 ≤ op < 256 →
  (int8 op <? int8 PUSH1) = negb ((PUSH1 <=? op) && (op <=? PUSH32)).
Proof.
  intros Hop. change (int8 PUSH1) with 96. unfold int8, PUSH1, PUSH32.
  rewrite u8_small by lia. change (2 ^ 7) with 128. change (2 ^ 8) with 256.
  destruct (Z.ltb_spec op 128); bool_cases.
Qed.

Lemma opcode_at_lookup (code : list byte) pc b :
  code !! Z.to_nat pc = Some b → opcode_at code pc = Ret (op_of b).
Proof. intros H. unfold opcode_at. rewrite H. reflexivity. Qed.

Lemma loop_body_marks (code : list byte) pc b (bits : BitVec) :
  0 ≤ pc → code !! Z.to_nat pc = Some b →
  (pc + 1 + push_width (op_of b)) / 8 < Z.of_nat (length bits) →
  Z.of_nat (length bits) < 2 ^ 61 → clear_from bits (pc + 1) →
  ∃ bits',
    loop_body code pc bits = Ret (pc + 1 + push_width (op_of b), bits') ∧
    marks (pc + 1) (push_width (op_of b)) bits bits'.
Proof.
  intros Hpc Hb Hin Hlen Hclear.
  pose proof (op_of_range b) as Hop.
  pose proof (push_width_range (op_of b)) as Hw.
  assert (pc + 1 + push_width (op_of b) < 2 ^ 64).
  { pose proof (Z.div_mod (pc + 1 + push_width (op_of b)) 8 ltac:(lia)).
    pose proof (Z.mod_pos_bound (pc + 1 + push_width (op_of b)) 8 ltac:(lia)). lia. }
  unfold loop_body. rewrite (opcode_at_lookup _ _ _ Hb). simpl.
  rewrite int8_test by exact Hop. rewrite u64_small by lia.
  unfold push_width in *.
  destruct ((PUSH1 <=? op_of b) && (op_of b <=? PUSH32)) eqn:Hpush; simpl.
  - apply andb_true_iff in Hpush. destruct Hpush as [H1 H2].
    apply Z.leb_le in H1, H2. unfold PUSH1, PUSH32 in *.
    rewrite u8_small by lia.
    set (w := op_of b - 96 + 1) in *.
    destruct (Z.leb_spec 8 w) as [Hbig|Hsmall].
    + destruct (loop16_marks (Z.to_nat w) w (pc + 1) bits)
        as (r1 & bits1 & Hl16 & Hr1 & Hr1w & Hm1); try lia; try assumption.
      rewrite Hl16. simpl.
      destruct (loop8_marks (Z.to_nat r1) r1 (pc + 1 + (w - r1)) bits1)
        as (r2 & bits2 & Hl8 & Hr2 & Hr2r & Hm2); try lia.
      * rewrite (marks_length _ _ _ _ Hm1).
        replace (pc + 1 + (w - r1) + r1) with (pc + 1 + w) by lia. exact Hin.
      * rewrite (marks_length _ _ _ _ Hm1). exact Hlen.
      * apply (marks_clear (pc + 1) (w - r1) bits bits1); [lia|lia|exact Hm1|exact Hclear].
      * rewrite Hl8. simpl.
        assert (marks (pc + 1) (w - r2) bits bits2) as Hm12.
        { replace (w - r2) with ((w - r1) + (r1 - r2)) by lia.
          apply (marks_trans _ _ _ bits bits1 bits2); [lia|lia|exact Hm1|exact Hm2]. }
        destruct (switch_marks r2 (pc + 1 + (w - r1) + (r1 - r2)) bits2)
          as (bits3 & Hsw & Hm3); try lia.
        -- rewrite (marks_length _ _ _ _ Hm12).
           replace (pc + 1 + (w - r1) + (r1 - r2) + r2) with (pc + 1 + w) by lia.
           exact Hin.
        -- rewrite (marks_length _ _ _ _ Hm12). exact Hlen.
        -- replace (pc + 1 + (w - r1) + (r1 - r2)) with (pc + 1 + (w - r2)) by lia.
           apply (marks_clear (pc + 1) (w - r2) bits bits2); [lia|lia|exact Hm12|exact Hclear].
        -- exists bits3. rewrite Hsw.
           replace (pc + 1 + (w - r1) + (r1 - r2) + r2) with (pc + 1 + w) by lia.
           split; [reflexivity|].
           replace w with ((w - r2) + r2) at 1 by lia.
           apply (marks_trans _ _ _ bits bits2 bits3); [lia|lia|exact Hm12|].
           replace (pc + 1 + (w - r2)) with (pc + 1 + (w - r1) + (r1 - r2)) by lia.
           exact Hm3.
    + destruct (switch_marks w (pc + 1) bits) as (bits3 & Hsw & Hm3); try lia; try assumption.
      exists bits3. cbn [bind]. rewrite Hsw. split; [reflexivity|exact Hm3].
  - exists bits. rewrite Z.add_0_r. split; [reflexivity|apply marks_none].
Qed.

Lemma run_trans code n m pc bits pc1 bits1 pc2 bits2 :
  run code n pc bits pc1 bits1 → run code m pc1 bits1 pc2 bits2 →
  run code (n + m) pc bits pc2 bits2.
Proof.
  induction 1 as [|n pc bits pa ba pb bb Hlt Hbody Hrun IH]; intros H2.
  - exact H2.
  - simpl. eapply run_iter; [exact Hlt|exact Hbody|]. apply IH. exact H2.
Qed.

Lemma run_snoc code n pc bits pc1 bits1 pc2 bits2 :
  run code n pc bits pc1 bits1 → pc1 < u64 (len code) →
  loop_body code pc1 bits1 = Ret (pc2, bits2) →
  run code (S n) pc bits pc2 bits2.
Proof.
  intros H1 Hlt Hbody. replace (S n) with (n + 1)%nat by lia.
  eapply run_trans; [exact H1|].
  eapply run_iter; [exact Hlt|exact Hbody|apply run_stop].
Qed.

(** The last iteration of a run. *)
Lemma run_last code n : ∀ pc bits pc' bits',
  run code (S n) pc bits pc' bits' →
  ∃ pa ba, run code n pc bits pa ba ∧ pa < u64 (len code) ∧
           loop_body code pa ba = Ret (pc', bits').
Proof.
  induction n as [|n IH]; intros pc bits pc' bits' Hrun.
  - inversion Hrun as [|? ? ? ? ? ? ? Hlt Hbody Hrest]; subst.
    inversion Hrest; subst.
    exists pc, bits. split; [apply run_stop|]. split; assumption.
  - inversion Hrun as [|? ? ? p1 b1 ? ? Hlt Hbody Hrest]; subst.
    destruct (IH _ _ _ _ Hrest) as (pa & ba & Hpre & Hlt' & Hbody').
    exists pa, ba. split; [|split; assumption].
    eapply run_iter; eassumption.
Qed.

(** A run that ends where the loop exits fixes the result of [scan], for
    every fuel that covers its iterations. *)
Lemma run_scan code n pc bits pc' bits' :
  run code n pc bits pc' bits' → exits code pc' →
  ∀ fuel, (n ≤ fuel)%nat → scan fuel code pc bits = Ret bits'.
Proof.
  induction 1 as [|n pc bits pa ba pb bb Hlt Hbody Hrun IH]; intros Hexit fuel Hfuel.
  - unfold exits in Hexit. destruct fuel; simpl;
      destruct (Z.ltb_spec pc (u64 (len code))); try lia; reflexivity.
  - destruct fuel as [|fuel]; [lia|]. simpl.
    destruct (Z.ltb_spec pc (u64 (len code))); [|lia].
    rewrite Hbody. simpl. apply IH; [exact Hexit|lia].
Qed.

(** Runs are deterministic: a run to an exit goes through every state
    that a run from the same start reaches. *)
Lemma run_split code m pc bits pc1 bits1 :
  run code m pc bits pc1 bits1 →
  ∀ n pcf bitsf, run code n pc bits pcf bitsf → exits code pcf →
  ∃ k, run code k pc1 bits1 pcf bitsf ∧ n = (m + k)%nat.
Proof.
  induction 1 as [|m pc bits pa ba pb bb Hlt Hbody Hrun IH]; intros n pcf bitsf Hn Hexit.
  - exists n. split; [exact Hn|reflexivity].
  - inversion Hn as [|n' ? ? pa' ba' ? ? Hlt' Hbody' Hrun']; subst.
    + exfalso. apply Hexit. exact Hlt.
    + rewrite Hbody in Hbody'. injection Hbody' as <- <-.
      destruct (IH _ _ _ Hrun' Hexit) as (k & Hk & ->).
      exists k. split; [exact Hk|reflexivity].
Qed.

Lemma bit_make code i : bit (make code) i = false.
Proof.
  unfold bit, byte_at, make.
  destruct (replicate _ 0 !! _) as [v|] eqn:E; simpl.
  - apply lookup_replicate in E. destruct E as [-> _]. apply Z.testbit_0_l.
  - apply Z.testbit_0_l.
Qed.

Lemma length_make code : Z.of_nat (length (make code)) = len code / 8 + 1 + 4.
Proof.
  unfold make. rewrite length_replicate.
  assert (0 ≤ len code / 8) by (apply Z.div_pos; unfold len; lia). lia.
Qed.

Lemma scan_inv_make code : scan_inv code 0 (make code).
Proof.
  split; [unfold len; lia|]. split; [apply length_make|].
  intros i _. apply bit_make.
Qed.

Section WithCode.

Variable code : list byte.

(** The length of a Go slice is an [int]. *)
Hypothesis go_len : len code < 2 ^ 63.

Lemma u64_len : u64 (len code) = len code.
Proof. apply u64_small. unfold len in *. lia. Qed.

Lemma lookup_code pc :
  0 ≤ pc < len code → ∃ b, code !! Z.to_nat pc = Some b.
Proof.
  intros Hpc. destruct (lookup_lt_is_Some_2 code (Z.to_nat pc)) as [b Hb].
  - unfold len in Hpc. lia.
  - exists b. exact Hb.
Qed.

Lemma lookup_code_lt pc b :
  0 ≤ pc → code !! Z.to_nat pc = Some b → pc < len code.
Proof.
  intros Hpc Hb. apply lookup_lt_Some in Hb. unfold len. lia.
Qed.

(** One iteration from a state that satisfies the invariant. *)
Lemma step_inv pc b bits :
  scan_inv code pc bits → code !! Z.to_nat pc = Some b →
  ∃ bits',
    loop_body code pc bits = Ret (pc + 1 + push_width (op_of b), bits') ∧
    marks (pc + 1) (push_width (op_of b)) bits bits' ∧
    scan_inv code (pc + 1 + push_width (op_of b)) bits'.
Proof.
  intros (Hpc & Hsize & Hclear) Hb.
  pose proof (lookup_code_lt pc b (proj1 Hpc) Hb) as Hlt.
  pose proof (push_width_range (op_of b)) as Hw.
  assert (0 ≤ len code) by (unfold len; lia).
  assert ((pc + 1 + push_width (op_of b)) / 8 ≤ (len code + 32) / 8)
    by (apply Z.div_le_mono; lia).
  assert ((len code + 32) / 8 = len code / 8 + 4)
    by (replace (len code + 32) with (len code + 4 * 8) by lia;
        apply Z.div_add; lia).
  assert (len code / 8 < 2 ^ 60) by (apply Z.div_lt_upper_bound; lia).
  assert (clear_from bits (pc + 1)) as Hclear1
    by (intros i Hi; apply Hclear; lia).
  destruct (loop_body_marks code pc b bits) as (bits' & Hbody & Hm);
    [lia|exact Hb|lia|lia|exact Hclear1|].
  exists bits'. split; [exact Hbody|]. split; [exact Hm|].
  split; [lia|]. split.
  - rewrite (marks_length _ _ _ _ Hm). exact Hsize.
  - apply (marks_clear (pc + 1) _ bits bits'); [lia|lia|exact Hm|exact Hclear1].
Qed.

Lemma step_shape pc bits pc1 bits1 :
  scan_inv code pc bits → pc < u64 (len code) →
  loop_body code pc bits = Ret (pc1, bits1) →
  ∃ b, code !! Z.to_nat pc = Some b ∧
       pc1 = pc + 1 + push_width (op_of b) ∧
       marks (pc + 1) (push_width (op_of b)) bits bits1 ∧
       scan_inv code pc1 bits1.
Proof.
  intros Hinv Hlt Hbody. rewrite u64_len in Hlt.
  destruct (lookup_code pc) as [b Hb]; [destruct Hinv as ((? & _) & _); lia|].
  destruct (step_inv pc b bits Hinv Hb) as (bits' & Hbody' & Hm & Hinv').
  rewrite Hbody in Hbody'. injection Hbody' as -> ->.
  exists b. repeat split; try assumption; try apply Hm; apply Hinv'.
Qed.

(** What every run from a state of the invariant preserves. *)
Lemma run_inv n pc bits pc' bits' :
  run code n pc bits pc' bits' → scan_inv code pc bits →
  scan_inv code pc' bits' ∧
  pc + Z.of_nat n ≤ pc' ∧
  (∀ i, 0 ≤ i → bit bits i = true → bit bits' i = true) ∧
  (∀ i, 0 ≤ i ≤ pc → bit bits' i = bit bits i).
Proof.
  induction 1 as [|n pc bits pa ba pb bb Hlt Hbody Hrun IH]; intros Hinv.
  - split; [exact Hinv|]. split; [lia|]. split; [auto|reflexivity].
  - destruct (step_shape _ _ _ _ Hinv Hlt Hbody) as (b & Hb & -> & [Hl Hm] & Hinv1).
    pose proof (push_width_range (op_of b)) as Hw.
    destruct (IH Hinv1) as (Hinv2 & Hpc & Hmono & Hframe).
    split; [exact Hinv2|]. split; [lia|]. split.
    + intros i Hi Hset. apply Hmono; [exact Hi|].
      rewrite Hm by exact Hi. rewrite Hset. reflexivity.
    + intros i Hi. rewrite Hframe by lia. rewrite Hm by lia.
      unfold in_span. replace ((pc + 1 <=? i) && _) with false by (symmetry; bool_cases).
      apply orb_false_r.
Qed.

(** From a state of the invariant the loop reaches its exit, in at most
    [len(code) - pc] iterations. *)
Lemma run_exits m : ∀ pc bits,
  scan_inv code pc bits → len code - pc ≤ Z.of_nat m →
  ∃ n pcf bitsf,
    run code n pc bits pcf bitsf ∧ exits code pcf ∧ (n ≤ m)%nat.
Proof.
  induction m as [|m IH]; intros pc bits Hinv Hm.
  - exists 0%nat, pc, bits. split; [apply run_stop|].
    split; [unfold exits; rewrite u64_len; lia|lia].
  - destruct (Z.lt_ge_cases pc (len code)) as [Hlt|Hge].
    + destruct (lookup_code pc) as [b Hb]; [destruct Hinv as ((? & _) & _); lia|].
      destruct (step_inv pc b bits Hinv Hb) as (bits1 & Hbody & _ & Hinv1).
      pose proof (push_width_range (op_of b)) as Hw.
      destruct (IH _ _ Hinv1) as (n & pcf & bitsf & Hrun & Hexit & Hn); [lia|].
      exists (S n), pcf, bitsf. split; [|split; [exact Hexit|lia]].
      eapply run_iter; [rewrite u64_len; exact Hlt|exact Hbody|exact Hrun].
    + exists 0%nat, pc, bits. split; [apply run_stop|].
      split; [unfold exits; rewrite u64_len; lia|lia].
Qed.

(** [codeBitmap] returns, after at most [len(code)] iterations. *)
Lemma codeBitmap_run :
  ∃ n pcf bitsf,
    run code n 0 (make code) pcf bitsf ∧ exits code pcf ∧
    (n ≤ length code)%nat ∧
    ∀ fuel, (length code ≤ fuel)%nat → codeBitmap fuel code = Ret bitsf.
Proof.
  destruct (run_exits (length code) 0 (make code) (scan_inv_make code))
    as (n & pcf & bitsf & Hrun & Hexit & Hn); [unfold len; lia|].
  exists n, pcf, bitsf. repeat split; try assumption.
  intros fuel Hfuel. unfold codeBitmap, codeBitmapInternal.
  apply (run_scan _ _ _ _ _ _ Hrun Hexit). lia.
Qed.

Lemma reach_inv pc bits : reach code pc bits → scan_inv code pc bits.
Proof.
  intros [n Hrun]. apply (run_inv _ _ _ _ _ Hrun (scan_inv_make code)).
Qed.

(** Every state of the scan runs on to the result of [codeBitmap]. *)
Lemma reach_result pc bits fuel bitsf :
  reach code pc bits → (length code ≤ fuel)%nat →
  codeBitmap fuel code = Ret bitsf →
  ∃ k pcf, run code k pc bits pcf bitsf ∧ exits code pcf.
Proof.
  intros [m Hm] Hfuel Hres.
  destruct codeBitmap_run as (n & pcf & bitsf' & Hrun & Hexit & _ & Hall).
  rewrite (Hall fuel Hfuel) in Hres. injection Hres as <-.
  destruct (run_split _ _ _ _ _ _ Hm _ _ _ Hrun Hexit) as (k & Hk & _).
  exists k, pcf. split; [exact Hk|exact Hexit].
Qed.

(** The result contains every bit of every state of the scan, and
    nothing at or below the position of that state. *)
Lemma reach_result_bits pc bits fuel bitsf :
  reach code pc bits → (length code ≤ fuel)%nat →
  codeBitmap fuel code = Ret bitsf →
  (∀ i, 0 ≤ i → bit bits i = true → bit bitsf i = true) ∧
  (∀ i, 0 ≤ i ≤ pc → bit bitsf i = bit bits i) ∧
  Z.of_nat (length bitsf) = len code / 8 + 1 + 4.
Proof.
  intros Hreach Hfuel Hres.
  destruct (reach_result _ _ _ _ Hreach Hfuel Hres) as (k & pcf & Hrun & _).
  destruct (run_inv _ _ _ _ _ Hrun (reach_inv _ _ Hreach))
    as ((_ & Hsize & _) & _ & Hmono & Hframe).
  repeat split; assumption.
Qed.

End WithCode.

(** ** The query on a vector *)

Lemma land1_testbit x k : 0 ≤ k →
  (Z.land (Z.shiftr x k) 1 =? 0) = negb (Z.testbit x k).
Proof.
  intros Hk. change 1 with (Z.ones 1). rewrite Z.land_ones by lia.
  replace (Z.testbit x k) with (Z.testbit (Z.shiftr x k) 0)
    by (rewrite Z.shiftr_spec by lia; f_equal).
  rewrite Z.bit0_eqb. change (2 ^ 1) with 2.
  pose proof (Z.mod_pos_bound (Z.shiftr x k) 2 ltac:(lia)).
  destruct (Z.eqb_spec (Z.shiftr x k mod 2) 0), (Z.eqb_spec (Z.shiftr x k mod 2) 1);
    simpl; try reflexivity; lia.
Qed.

Lemma codeSegment_bit (bits : BitVec) pos :
  0 ≤ pos → pos / 8 < Z.of_nat (length bits) →
  codeSegment bits pos = Ret (negb (bit bits pos)).
Proof.
  intros Hpos Hin. unfold codeSegment.
  rewrite load_ok by (split; [apply Z.div_pos; lia|exact Hin]). simpl.
  rewrite land1_testbit by (apply Z.mod_pos_bound; lia). reflexivity.
Qed.

(** In a vector of the allocated size the query answers at every offset
    up to [len(code)]. *)
Lemma codeSegment_in_code code (bits : BitVec) pos :
  Z.of_nat (length bits) = len code / 8 + 1 + 4 → 0 ≤ pos ≤ len code →
  codeSegment bits pos = Ret (negb (bit bits pos)).
Proof.
  intros Hsize Hpos. apply codeSegment_bit; [lia|].
  assert (pos / 8 ≤ len code / 8) by (apply Z.div_le_mono; lia). lia.
Qed.

(** ** Bytes outside the push family *)

Lemma push_width_push op :
  PUSH1 ≤ op ≤ PUSH32 → push_width op = op - PUSH1 + 1.
Proof.
  intros H. unfold push_width.
  destruct (Z.leb_spec PUSH1 op), (Z.leb_spec op PUSH32); simpl; lia.
Qed.

Lemma push_width_other op :
  ¬ (PUSH1 ≤ op ≤ PUSH32) → push_width op = 0.
Proof.
  intros H. unfold push_width.
  destruct (Z.leb_spec PUSH1 op), (Z.leb_spec op PUSH32); simpl; lia.
Qed.

(** A byte outside the push family leaves the vector as it is. *)
Lemma loop_body_other (code : list byte) pc b (bits : BitVec) :
  code !! Z.to_nat pc = Some b → ¬ (PUSH1 ≤ op_of b ≤ PUSH32) →
  loop_body code pc bits = Ret (u64 (pc + 1), bits).
Proof.
  intros Hb Hother. unfold loop_body.
  rewrite (opcode_at_lookup _ _ _ Hb). simpl.
  rewrite int8_test by apply op_of_range.
  destruct (Z.leb_spec PUSH1 (op_of b)), (Z.leb_spec (op_of b) PUSH32);
    simpl; try reflexivity; lia.
Qed.

(** ** The scan of the code and the scan of the specification *)

Lemma scanned_nonneg code pc : scanned code pc → 0 ≤ pc.
Proof.
  induction 1 as [|pc b Hs IH Hb]; [lia|].
  pose proof (push_width_range (op_of b)). lia.
Qed.

Section Reference.

Variable code : list byte.
Hypothesis go_len : len code < 2 ^ 63.

Lemma reach_scanned pc bits : reach code pc bits → scanned code pc.
Proof.
  intros [n Hrun].
  remember 0 as pc0 eqn:Hpc0. remember (make code) as bits0 eqn:Hbits0.
  assert (scan_inv code pc0 bits0) as Hinv0
    by (subst; apply scan_inv_make).
  assert (scanned code pc0) as Hs0 by (subst; apply scanned_first).
  clear Hpc0 Hbits0.
  induction Hrun as [|n pc bits pa ba pb bb Hlt Hbody Hrun IH]; [exact Hs0|].
  destruct (step_shape code go_len _ _ _ _ Hinv0 Hlt Hbody)
    as (b & Hb & -> & _ & Hinv1).
  apply IH; [exact Hinv1|].
  replace (pc + 1 + push_width (op_of b)) with (pc + push_width (op_of b) + 1) by lia.
  apply scanned_next; assumption.
Qed.

Lemma scanned_reach pc : scanned code pc → ∃ bits, reach code pc bits.
Proof.
  induction 1 as [|pc b Hs [bits [n Hrun]] Hb].
  - exists (make code), 0%nat. apply run_stop.
  - pose proof (scanned_nonneg _ _ Hs) as Hpc.
    assert (reach code pc bits) as Hreach by (exists n; exact Hrun).
    destruct (step_inv code go_len pc b bits (reach_inv code go_len _ _ Hreach) Hb)
      as (bits' & Hbody & _ & _).
    exists bits', (S n).
    replace (pc + push_width (op_of b) + 1) with (pc + 1 + push_width (op_of b)) by lia.
    eapply run_snoc; [exact Hrun| |exact Hbody].
    rewrite (u64_len code go_len). apply (lookup_code_lt code pc b Hpc Hb).
Qed.

(** The bits of a state of the scan are data offsets of the
    specification. *)
Lemma reach_bits_data pc bits :
  reach code pc bits → ∀ i, 0 ≤ i → bit bits i = true → data_offset code i.
Proof.
  intros [n Hrun]. revert pc bits Hrun.
  induction n as [|n IH]; intros pc bits Hrun i Hi Hset.
  - inversion Hrun; subst. rewrite bit_make in Hset. discriminate.
  - destruct (run_last code n 0 (make code) pc bits Hrun)
      as (pa & ba & Hpre & Hlt & Hbody).
    assert (reach code pa ba) as Hreach by (exists n; exact Hpre).
    destruct (step_shape code go_len _ _ _ _ (reach_inv code go_len _ _ Hreach) Hlt Hbody)
      as (b & Hb & -> & [_ Hm] & _).
    rewrite Hm in Hset by exact Hi.
    apply orb_true_iff in Hset. destruct Hset as [Hold|Hnew].
    + apply (IH _ _ Hpre i Hi Hold).
    + exists pa, b. split; [apply (reach_scanned _ _ Hreach)|]. split; [exact Hb|].
      unfold in_span in Hnew. apply andb_true_iff in Hnew.
      destruct Hnew as [H1 H2]. apply Z.leb_le in H1. apply Z.ltb_lt in H2. lia.
Qed.

End Reference.

(** ** The result of [codeBitmap] *)

Section Result.

Variable code : list byte.
Hypothesis go_len : len code < 2 ^ 63.

Variable fuel : nat.
Hypothesis enough : (length code ≤ fuel)%nat.

Lemma codeBitmap_returns : ∃ bits, codeBitmap fuel code = Ret bits.
Proof.
  destruct (codeBitmap_run code go_len) as (n & pcf & bitsf & _ & _ & _ & Hall).
  exists bitsf. apply Hall. exact enough.
Qed.

Lemma result_reach bitsf :
  codeBitmap fuel code = Ret bitsf → ∃ pcf, reach code pcf bitsf ∧ exits code pcf.
Proof.
  intros Hres.
  destruct (codeBitmap_run code go_len) as (n & pcf & bitsf' & Hrun & Hexit & _ & Hall).
  rewrite (Hall fuel enough) in Hres. injection Hres as <-.
  exists pcf. split; [exists n; exact Hrun|exact Hexit].
Qed.

Lemma result_length bitsf :
  codeBitmap fuel code = Ret bitsf →
  Z.of_nat (length bitsf) = len code / 8 + 1 + 4.
Proof.
  intros Hres. destruct (result_reach _ Hres) as (pcf & Hreach & _).
  apply (reach_inv code go_len _ _ Hreach).
Qed.

(** The span of an evaluated byte is set in the result, and the offset
    after the span is not. *)
Lemma result_span pc bits b bitsf :
  reach code pc bits → code !! Z.to_nat pc = Some b →
  codeBitmap fuel code = Ret bitsf →
  (∀ i, pc + 1 ≤ i ≤ pc + push_width (op_of b) → bit bitsf i = true) ∧
  (∀ i, 0 ≤ i ≤ pc → bit bitsf i = bit bits i) ∧
  bit bitsf pc = false ∧
  bit bitsf (pc + push_width (op_of b) + 1) = false.
Proof.
  intros Hreach Hb Hres.
  pose proof (reach_inv code go_len _ _ Hreach) as Hinv.
  destruct Hinv as (Hpc & Hsize & Hclear).
  pose proof (push_width_range (op_of b)) as Hw.
  destruct (step_inv code go_len pc b bits (conj Hpc (conj Hsize Hclear)) Hb)
    as (bits' & Hbody & [_ Hm] & Hinv').
  assert (reach code (pc + 1 + push_width (op_of b)) bits') as Hreach'.
  { destruct Hreach as [n Hrun]. exists (S n).
    eapply run_snoc; [exact Hrun| |exact Hbody].
    rewrite (u64_len code go_len). apply (lookup_code_lt code pc b (proj1 Hpc) Hb). }
  destruct (reach_result_bits code go_len _ _ _ _ Hreach' enough Hres)
    as (Hmono & Hframe & _).
  destruct (reach_result_bits code go_len _ _ _ _ Hreach enough Hres)
    as (_ & Hframe0 & _).
  split; [|split; [exact Hframe0|split]].
  - intros i Hi. apply Hmono; [lia|]. rewrite Hm by lia.
    unfold in_span.
    destruct (Z.leb_spec (pc + 1) i), (Z.ltb_spec i (pc + 1 + push_width (op_of b)));
      try lia; apply orb_true_r.
  - rewrite Hframe0 by lia. apply Hclear. lia.
  - rewrite Hframe by lia. rewrite Hm by lia.
    rewrite Hclear by lia. unfold in_span. bool_cases.
Qed.

(** The result has exactly the data offsets of the specification. *)
Lemma result_bit_data bitsf i :
  codeBitmap fuel code = Ret bitsf → 0 ≤ i →
  bit bitsf i = true ↔ data_offset code i.
Proof.
  intros Hres Hi. split.
  - intros Hset. destruct (result_reach _ Hres) as (pcf & Hreach & _).
    apply (reach_bits_data code go_len _ _ Hreach i Hi Hset).
  - intros (pc & b & Hs & Hb & Hspan).
    destruct (scanned_reach code go_len pc Hs) as [bits Hreach].
    apply (result_span pc bits b bitsf Hreach Hb Hres). exact Hspan.
Qed.

End Result.

(** * The claims of the specification *)

(** ** Offset 0 *)

(** Claim C7.  For every non-empty code the query on the result of
    [codeBitmap] answers "instruction start" at offset 0: bit 0 is never
    set. *)
Theorem first_offset_is_instruction_start (code : list byte) (fuel : nat) :
  len code < 2 ^ 63 → code ≠ [] → (length code ≤ fuel)%nat →
  ∃ bits, codeBitmap fuel code = Ret bits ∧ codeSegment bits 0 = Ret true.
Proof.
  intros Hgo Hne Hfuel.
  destruct (codeBitmap_returns code Hgo fuel Hfuel) as [bits Hres].
  exists bits. split; [exact Hres|].
  assert (reach code 0 (make code)) as Hreach by (exists 0%nat; apply run_stop).
  destruct (reach_result_bits code Hgo _ _ _ _ Hreach Hfuel Hres) as (_ & Hframe & Hsize).
  rewrite (codeSegment_in_code code bits 0 Hsize) by (unfold len; lia).
  rewrite Hframe by lia. rewrite bit_make. reflexivity.
Qed.

Lemma first_offset_is_instruction_start_witness :
  ∃ bits, codeBitmap 1 [bPUSH32] = Ret bits ∧ codeSegment bits 0 = Ret true.
Proof.
  apply (first_offset_is_instruction_start [bPUSH32] 1);
    [reflexivity | discriminate | simpl; lia].
Defined.

(** ** The span of a push *)

(** Claim C6.  For a push of width [n] at an offset [pc] that the scan
    evaluates, with [pc + n < len(code)]: the offsets [pc+1 .. pc+n] are
    data in the result and the offset [pc+n+1] is an instruction
    start. *)
Theorem push_span_then_instruction_start
    (code : list byte) (fuel : nat) (pc : Z) (b : byte) :
  len code < 2 ^ 63 → (length code ≤ fuel)%nat →
  evaluated code pc → code !! Z.to_nat pc = Some b →
  PUSH1 ≤ op_of b ≤ PUSH32 →
  pc + (op_of b - PUSH1 + 1) < len code →
  ∃ bits, codeBitmap fuel code = Ret bits ∧
    (∀ i, pc + 1 ≤ i ≤ pc + (op_of b - PUSH1 + 1) → codeSegment bits i = Ret false) ∧
    codeSegment bits (pc + (op_of b - PUSH1 + 1) + 1) = Ret true.
Proof.
  intros Hgo Hfuel [Hlt [bits0 Hreach]] Hb Hpush Hin.
  destruct (codeBitmap_returns code Hgo fuel Hfuel) as [bits Hres].
  exists bits. split; [exact Hres|].
  pose proof (result_length code Hgo fuel Hfuel bits Hres) as Hsize.
  pose proof (reach_inv code Hgo _ _ Hreach) as ((Hpc & _) & _).
  destruct (result_span code Hgo fuel Hfuel pc bits0 b bits Hreach Hb Hres)
    as (Hspan & _ & _ & Hnext).
  rewrite (push_width_push _ Hpush) in Hspan, Hnext.
  split.
  - intros i Hi. rewrite (codeSegment_in_code code bits i Hsize) by lia.
    rewrite Hspan by exact Hi. reflexivity.
  - rewrite (codeSegment_in_code code bits _ Hsize) by (unfold PUSH1 in *; lia).
    rewrite Hnext. reflexivity.
Qed.

Lemma push_span_then_instruction_start_witness :
  ∃ bits, codeBitmap 3 [bPUSH1; xff; bJUMPDEST] = Ret bits ∧
    (∀ i, 0 + 1 ≤ i ≤ 0 + (op_of bPUSH1 - PUSH1 + 1) → codeSegment bits i = Ret false) ∧
    codeSegment bits (0 + (op_of bPUSH1 - PUSH1 + 1) + 1) = Ret true.
Proof.
  apply (push_span_then_instruction_start [bPUSH1; xff; bJUMPDEST] 3 0 bPUSH1).
  - reflexivity.
  - simpl; lia.
  - split; [reflexivity|]. exists (make [bPUSH1; xff; bJUMPDEST]), 0%nat. apply run_stop.
  - reflexivity.
  - vm_compute. split; discriminate.
  - reflexivity.
Defined.

(** ** No fault, and the right answer inside the code *)

(** Claim C2.  For every code, also one whose last push declares a span
    past [len(code)], the classification returns: no read or write of it
    leaves the array of [len(code)/8+1+4] bytes.  At every offset below
    [len(code)] the query answers, and it answers "data" exactly for the
    offsets that the specification classifies as data. *)
Theorem codeBitmap_in_bounds_and_correct (code : list byte) (fuel : nat) :
  len code < 2 ^ 63 → (length code ≤ fuel)%nat →
  ∃ bits, codeBitmap fuel code = Ret bits ∧
    Z.of_nat (length bits) = len code / 8 + 1 + 4 ∧
    ∀ pos, 0 ≤ pos < len code →
      (data_offset code pos → codeSegment bits pos = Ret false) ∧
      (¬ data_offset code pos → codeSegment bits pos = Ret true).
Proof.
  intros Hgo Hfuel.
  destruct (codeBitmap_returns code Hgo fuel Hfuel) as [bits Hres].
  exists bits. split; [exact Hres|].
  pose proof (result_length code Hgo fuel Hfuel bits Hres) as Hsize.
  split; [exact Hsize|].
  intros pos Hpos.
  rewrite (codeSegment_in_code code bits pos Hsize) by lia.
  pose proof (result_bit_data code Hgo fuel Hfuel bits pos Hres (proj1 Hpos)) as Hiff.
  split; intros Hd.
  - apply Hiff in Hd. rewrite Hd. reflexivity.
  - destruct (bit bits pos) eqn:Hbit; [|reflexivity].
    exfalso. apply Hd, Hiff. reflexivity.
Qed.

Lemma codeBitmap_in_bounds_and_correct_witness :
  ∃ bits, codeBitmap 2 [bSTOP; bPUSH32] = Ret bits ∧
    Z.of_nat (length bits) = len [bSTOP; bPUSH32] / 8 + 1 + 4 ∧
    ∀ pos, 0 ≤ pos < len [bSTOP; bPUSH32] →
      (data_offset [bSTOP; bPUSH32] pos → codeSegment bits pos = Ret false) ∧
      (¬ data_offset [bSTOP; bPUSH32] pos → codeSegment bits pos = Ret true).
Proof.
  apply (codeBitmap_in_bounds_and_correct [bSTOP; bPUSH32] 2);
    [reflexivity | simpl; lia].
Defined.

(** ** Forward and monotone *)

(** Claim C5.  Along the scan the set of marked bits only grows, and the
    offset of a byte that the scan evaluates as an opcode is marked
    neither in a later state nor in the result.  The cursor only moves
    forward, and in every state no bit at or above the cursor is set:
    what the plain stores of [setN], [set8] and [set16] overwrite is
    zero. *)
Theorem scan_forward_monotone
    (code : list byte) (fuel : nat) (pc1 : Z) (bits1 : BitVec)
    (n : nat) (pc2 : Z) (bits2 : BitVec) :
  len code < 2 ^ 63 → (length code ≤ fuel)%nat →
  reach code pc1 bits1 → run code n pc1 bits1 pc2 bits2 →
  (∀ i, 0 ≤ i → bit bits1 i = true → bit bits2 i = true) ∧
  (∀ i, 0 ≤ i ≤ pc1 → bit bits2 i = bit bits1 i) ∧
  bit bits2 pc1 = false ∧
  pc1 + Z.of_nat n ≤ pc2 ∧
  clear_from bits2 pc2 ∧
  ∃ bits, codeBitmap fuel code = Ret bits ∧
    (∀ i, 0 ≤ i → bit bits2 i = true → bit bits i = true) ∧
    (pc1 < len code → codeSegment bits pc1 = Ret true).
Proof.
  intros Hgo Hfuel Hreach Hrun.
  pose proof (reach_inv code Hgo _ _ Hreach) as Hinv.
  destruct (run_inv code Hgo _ _ _ _ _ Hrun Hinv)
    as ((_ & _ & Hclear2) & Hfwd & Hmono & Hframe).
  destruct Hinv as ((Hpc & _) & _ & Hclear).
  split; [exact Hmono|]. split; [exact Hframe|].
  split; [rewrite Hframe by lia; apply Hclear; lia|].
  split; [exact Hfwd|]. split; [exact Hclear2|].
  destruct (codeBitmap_returns code Hgo fuel Hfuel) as [bits Hres].
  exists bits. split; [exact Hres|].
  assert (reach code pc2 bits2) as Hreach2.
  { destruct Hreach as [m Hm]. exists (m + n)%nat.
    eapply run_trans; [exact Hm|exact Hrun]. }
  destruct (reach_result_bits code Hgo _ _ _ _ Hreach2 Hfuel Hres) as (Hmono2 & _ & Hsize).
  destruct (reach_result_bits code Hgo _ _ _ _ Hreach Hfuel Hres) as (_ & Hframe1 & _).
  split; [exact Hmono2|].
  intros Hlt. rewrite (codeSegment_in_code code bits pc1 Hsize) by lia.
  rewrite Hframe1 by lia. rewrite Hclear by lia. reflexivity.
Qed.

Lemma scan_forward_monotone_witness :
  (∀ i, 0 ≤ i → bit (make [bPUSH1; xff; bJUMPDEST]) i = true →
        bit [2; 0; 0; 0; 0] i = true) ∧
  (∀ i, 0 ≤ i ≤ 0 → bit [2; 0; 0; 0; 0] i = bit (make [bPUSH1; xff; bJUMPDEST]) i) ∧
  bit [2; 0; 0; 0; 0] 0 = false ∧
  0 + Z.of_nat 1 ≤ 2 ∧
  clear_from [2; 0; 0; 0; 0] 2 ∧
  ∃ bits, codeBitmap 3 [bPUSH1; xff; bJUMPDEST] = Ret bits ∧
    (∀ i, 0 ≤ i → bit [2; 0; 0; 0; 0] i = true → bit bits i = true) ∧
    (0 < len [bPUSH1; xff; bJUMPDEST] → codeSegment bits 0 = Ret true).
Proof.
  apply (scan_forward_monotone [bPUSH1; xff; bJUMPDEST] 3 0
           (make [bPUSH1; xff; bJUMPDEST]) 1 2 [2; 0; 0; 0; 0]).
  - reflexivity.
  - simpl; lia.
  - exists 0%nat. apply run_stop.
  - eapply run_iter; [reflexivity | reflexivity | apply run_stop].
Defined.

(** ** One byte as the current opcode *)

(** Claim C4.  A byte [b] that the scan evaluates at [pc]: the signed
    comparison of the code lets through exactly the push family.  If [b]
    is in the push family, with [w = b - PUSH1 + 1], then [1 <= w <= 32],
    the iteration sets the [w] bits [pc+1 .. pc+w], which were unset, and
    no other, and the cursor advances by [w + 1].  For every other byte
    the vector is unchanged and the cursor advances by 1. *)
Theorem loop_body_by_opcode
    (code : list byte) (pc : Z) (bits : BitVec) (b : byte) :
  len code < 2 ^ 63 → reach code pc bits → code !! Z.to_nat pc = Some b →
  ((int8 (op_of b) <? int8 PUSH1) = false ↔ PUSH1 ≤ op_of b ≤ PUSH32) ∧
  (PUSH1 ≤ op_of b ≤ PUSH32 →
     1 ≤ op_of b - PUSH1 + 1 ≤ 32 ∧
     ∃ bits',
       loop_body code pc bits = Ret (pc + (op_of b - PUSH1 + 1) + 1, bits') ∧
       length bits' = length bits ∧
       (∀ i, 0 ≤ i →
          bit bits' i = true ↔
          bit bits i = true ∨ pc + 1 ≤ i ≤ pc + (op_of b - PUSH1 + 1)) ∧
       (∀ i, pc + 1 ≤ i ≤ pc + (op_of b - PUSH1 + 1) → bit bits i = false)) ∧
  (¬ (PUSH1 ≤ op_of b ≤ PUSH32) →
     loop_body code pc bits = Ret (pc + 1, bits)).
Proof.
  intros Hgo Hreach Hb.
  pose proof (reach_inv code Hgo _ _ Hreach) as Hinv.
  pose proof (op_of_range b) as Hop.
  split; [|split].
  - rewrite int8_test by exact Hop. rewrite negb_false_iff, andb_true_iff.
    rewrite !Z.leb_le. reflexivity.
  - intros Hpush. split; [unfold PUSH1, PUSH32 in *; lia|].
    destruct (step_inv code Hgo pc b bits Hinv Hb) as (bits' & Hbody & [Hl Hm] & _).
    rewrite (push_width_push _ Hpush) in Hbody, Hm.
    exists bits'. split; [|split; [exact Hl|split]].
    + rewrite Hbody. do 2 f_equal. lia.
    + intros i Hi. rewrite Hm by exact Hi. rewrite orb_true_iff.
      unfold in_span. rewrite andb_true_iff, Z.leb_le, Z.ltb_lt.
      split; (intros [H|H]; [left; exact H|right; lia]).
    + intros i Hi. destruct Hinv as (_ & _ & Hclear). apply Hclear. lia.
  - intros Hother. rewrite (loop_body_other code pc b bits Hb Hother).
    destruct Hinv as ((Hpc & Hpc') & _).
    rewrite u64_small by (unfold len in *; lia). reflexivity.
Qed.

Lemma loop_body_by_opcode_witness :
  ((int8 (op_of bPUSH32) <? int8 PUSH1) = false ↔ PUSH1 ≤ op_of bPUSH32 ≤ PUSH32) ∧
  (PUSH1 ≤ op_of bPUSH32 ≤ PUSH32 →
     1 ≤ op_of bPUSH32 - PUSH1 + 1 ≤ 32 ∧
     ∃ bits',
       loop_body [bPUSH32] 0 (make [bPUSH32]) = Ret (0 + (op_of bPUSH32 - PUSH1 + 1) + 1, bits') ∧
       length bits' = length (make [bPUSH32]) ∧
       (∀ i, 0 ≤ i →
          bit bits' i = true ↔
          bit (make [bPUSH32]) i = true ∨ 0 + 1 ≤ i ≤ 0 + (op_of bPUSH32 - PUSH1 + 1)) ∧
       (∀ i, 0 + 1 ≤ i ≤ 0 + (op_of bPUSH32 - PUSH1 + 1) → bit (make [bPUSH32]) i = false)) ∧
  (¬ (PUSH1 ≤ op_of bPUSH32 ≤ PUSH32) →
     loop_body [bPUSH32] 0 (make [bPUSH32]) = Ret (0 + 1, make [bPUSH32])).
Proof.
  apply (loop_body_by_opcode [bPUSH32] 0 (make [bPUSH32]) bPUSH32).
  - reflexivity.
  - exists 0%nat. apply run_stop.
  - reflexivity.
Defined.

(** ** Termination *)

(** Claim C10.  The scan terminates.  An iteration from a state of the
    scan returns and moves the cursor by the push width of the byte plus
    one, so by at least 1; the loop exits, in every state and with any
    fuel, as soon as [pc >= len(code)]; the run of [codeBitmap] has at
    most [len(code)] iterations and ends at a cursor [>= len(code)], so
    [len(code)] units of fuel, or more, give the result. *)
Theorem scan_terminates (code : list byte) :
  len code < 2 ^ 63 →
  (∀ pc bits, reach code pc bits → pc < len code →
     ∃ b bits',
       code !! Z.to_nat pc = Some b ∧
       loop_body code pc bits = Ret (pc + push_width (op_of b) + 1, bits') ∧
       (PUSH1 ≤ op_of b ≤ PUSH32 → push_width (op_of b) = op_of b - PUSH1 + 1) ∧
       (¬ (PUSH1 ≤ op_of b ≤ PUSH32) → push_width (op_of b) = 0) ∧
       pc + 1 ≤ pc + push_width (op_of b) + 1) ∧
  (∀ fuel pc bits, len code ≤ pc → scan fuel code pc bits = Ret bits) ∧
  (∃ n pcf bitsf,
     run code n 0 (make code) pcf bitsf ∧ len code ≤ pcf ∧
     (n ≤ length code)%nat ∧
     ∀ fuel, (length code ≤ fuel)%nat → codeBitmap fuel code = Ret bitsf).
Proof.
  intros Hgo. split; [|split].
  - intros pc bits Hreach Hlt.
    pose proof (reach_inv code Hgo _ _ Hreach) as Hinv.
    destruct (lookup_code code pc) as [b Hb]; [destruct Hinv as ((? & _) & _); lia|].
    destruct (step_inv code Hgo pc b bits Hinv Hb) as (bits' & Hbody & _ & _).
    pose proof (push_width_range (op_of b)) as Hw.
    exists b, bits'. split; [exact Hb|]. split.
    + rewrite Hbody. do 2 f_equal. lia.
    + split; [apply push_width_push|]. split; [apply push_width_other|lia].
  - intros fuel pc bits Hge.
    destruct fuel; simpl; rewrite (u64_len code Hgo);
      destruct (Z.ltb_spec pc (len code)); try lia; reflexivity.
  - destruct (codeBitmap_run code Hgo) as (n & pcf & bitsf & Hrun & Hexit & Hn & Hall).
    exists n, pcf, bitsf. split; [exact Hrun|]. split; [|split; assumption].
    unfold exits in Hexit. rewrite (u64_len code Hgo) in Hexit. lia.
Qed.

Lemma scan_terminates_witness :
  ∃ n pcf bitsf,
    run [bPUSH1; xff; bJUMPDEST] n 0 (make [bPUSH1; xff; bJUMPDEST]) pcf bitsf ∧
    len [bPUSH1; xff; bJUMPDEST] ≤ pcf ∧
    (n ≤ length [bPUSH1; xff; bJUMPDEST])%nat ∧
    ∀ fuel, (length [bPUSH1; xff; bJUMPDEST] ≤ fuel)%nat →
            codeBitmap fuel [bPUSH1; xff; bJUMPDEST] = Ret bitsf.
Proof.
  apply (scan_terminates [bPUSH1; xff; bJUMPDEST]). reflexivity.
Defined.

(** ** The size of the array *)

(** Claim C8, as stated, fails: for a code of one byte the array has 40
    bits, which is 39 bits more than [len(code)] bits, less than the 5
    bytes (40 bits) of the claim. *)
Lemma padding_five_bytes_counterexample :
  ¬ (len [bSTOP] + 8 * (32 / 8 + 1) ≤ 8 * Z.of_nat (length (make [bSTOP]))).
Proof. vm_compute. intros H. apply H. reflexivity. Qed.

(** Claim C8, amended.  The array that [codeBitmap] allocates and returns
    has [len(code)/8 + 1 + 4] bytes: 5 bytes more than the [len(code)/8]
    whole bytes of the code's bits.  It extends beyond [len(code)] bits by
    [40 - len(code) mod 8] bits, that is by more than 4 bytes and at most
    5 bytes, and by 5 bytes exactly when [len(code)] is a multiple of
    8. *)
Theorem padding_size (code : list byte) (fuel : nat) :
  len code < 2 ^ 63 → (length code ≤ fuel)%nat →
  ∃ bits, codeBitmap fuel code = Ret bits ∧
    length bits = length (make code) ∧
    Z.of_nat (length bits) = len code / 8 + 1 + 4 ∧
    Z.of_nat (length bits) - len code / 8 = 32 / 8 + 1 ∧
    8 * Z.of_nat (length bits) - len code = 8 * (32 / 8 + 1) - len code mod 8 ∧
    8 * 4 < 8 * Z.of_nat (length bits) - len code ≤ 8 * 5.
Proof.
  intros Hgo Hfuel.
  destruct (codeBitmap_returns code Hgo fuel Hfuel) as [bits Hres].
  exists bits. split; [exact Hres|].
  pose proof (result_length code Hgo fuel Hfuel bits Hres) as Hsize.
  pose proof (length_make code) as Hmake.
  pose proof (Z.div_mod (len code) 8 ltac:(lia)).
  pose proof (Z.mod_pos_bound (len code) 8 ltac:(lia)).
  change (32 / 8) with 4.
  repeat split; lia.
Qed.

Lemma padding_size_witness :
  ∃ bits, codeBitmap 1 [bSTOP] = Ret bits ∧
    length bits = length (make [bSTOP]) ∧
    Z.of_nat (length bits) = len [bSTOP] / 8 + 1 + 4 ∧
    Z.of_nat (length bits) - len [bSTOP] / 8 = 32 / 8 + 1 ∧
    8 * Z.of_nat (length bits) - len [bSTOP] = 8 * (32 / 8 + 1) - len [bSTOP] mod 8 ∧
    8 * 4 < 8 * Z.of_nat (length bits) - len [bSTOP] ≤ 8 * 5.
Proof.
  apply (padding_size [bSTOP] 1); [reflexivity | simpl; lia].
Defined.

(** ** Bytes inside a push span *)

Lemma loop_body_ext (code1 code2 : list byte) pc (bits : BitVec) :
  code1 !! Z.to_nat pc = code2 !! Z.to_nat pc →
  loop_body code1 pc bits = loop_body code2 pc bits.
Proof. intros H. unfold loop_body, opcode_at. rewrite H. reflexivity. Qed.

(** A run on [code1] is a run on [code2] when the two codes agree
    wherever the final vector of the run has no bit. *)
Lemma run_agree (code1 code2 : list byte) n pc bits pcf bitsf :
  len code1 < 2 ^ 63 → length code1 = length code2 →
  run code1 n pc bits pcf bitsf → scan_inv code1 pc bits →
  (∀ i, 0 ≤ i < len code1 → bit bitsf i = false →
        code1 !! Z.to_nat i = code2 !! Z.to_nat i) →
  run code2 n pc bits pcf bitsf.
Proof.
  intros Hgo Hlen Hrun. 
  assert (len code2 = len code1) as Hlen' by (unfold len; lia).
  induction Hrun as [|n pc bits pa ba pb bb Hlt Hbody Hrun IH]; intros Hinv Hsame.
  - apply run_stop.
  - assert (run code1 (S n) pc bits pb bb) as Hwhole
      by (eapply run_iter; eassumption).
    destruct (run_inv code1 Hgo _ _ _ _ _ Hwhole Hinv) as (_ & _ & _ & Hframe).
    destruct (step_shape code1 Hgo _ _ _ _ Hinv Hlt Hbody) as (_ & _ & _ & _ & Hinv1).
    destruct Hinv as ((Hpc & _) & _ & Hclear).
    rewrite (u64_len code1 Hgo) in Hlt.
    assert (code1 !! Z.to_nat pc = code2 !! Z.to_nat pc) as Heq.
    { apply Hsame; [lia|]. rewrite Hframe by lia. apply Hclear. lia. }
    eapply run_iter.
    + rewrite Hlen'. rewrite (u64_len code1 Hgo). exact Hlt.
    + rewrite <- (loop_body_ext code1 code2 pc bits Heq). exact Hbody.
    + apply IH; [exact Hinv1|exact Hsame].
Qed.

Lemma lookup_differ (code1 code2 : list byte) i :
  length code1 = length code2 →
  code1 !! i = code2 !! i ∨ code1 !! i ≠ code2 !! i.
Proof.
  intros Hlen.
  destruct (code1 !! i) as [b1|] eqn:E1, (code2 !! i) as [b2|] eqn:E2.
  - destruct (Byte.byte_eq_dec b1 b2) as [->|Hne]; [left; reflexivity|].
    right. intros H. injection H as H. contradiction.
  - right. discriminate.
  - right. discriminate.
  - left. reflexivity.
Qed.

(** Claim C3.  Two codes of equal length that differ only at offsets
    which the classification of the first marks as data have the same
    classification, bit for bit.  In particular an offset inside the span
    of an evaluated PUSH32 is data whatever byte it holds, the JUMPDEST
    value included. *)
Theorem data_bytes_do_not_matter
    (code1 code2 : list byte) (fuel : nat) (bits1 : BitVec) :
  len code1 < 2 ^ 63 → length code1 = length code2 →
  (length code1 ≤ fuel)%nat →
  codeBitmap fuel code1 = Ret bits1 →
  (∀ i, 0 ≤ i < len code1 →
        code1 !! Z.to_nat i ≠ code2 !! Z.to_nat i →
        codeSegment bits1 i = Ret false) →
  codeBitmap fuel code2 = Ret bits1 ∧
  (∀ pc i v, evaluated code1 pc → code1 !! Z.to_nat pc = Some bPUSH32 →
             pc + 1 ≤ i ≤ pc + 32 → code1 !! Z.to_nat i = Some v →
             codeSegment bits1 i = Ret false).
Proof.
  intros Hgo Hlen Hfuel Hres Hdiff.
  pose proof (result_length code1 Hgo fuel Hfuel bits1 Hres) as Hsize.
  split.
  - destruct (codeBitmap_run code1 Hgo) as (n & pcf & bitsf & Hrun & Hexit & Hn & Hall).
    rewrite (Hall fuel Hfuel) in Hres. injection Hres as ->.
    assert (len code2 = len code1) as Hlen' by (unfold len; lia).
    assert (make code2 = make code1) as Hmake by (unfold make; rewrite Hlen'; reflexivity).
    unfold codeBitmap, codeBitmapInternal. rewrite Hmake.
    apply (run_scan code2 n 0 (make code1) pcf bits1); [| |lia].
    + apply (run_agree code1 code2); try assumption; [apply scan_inv_make|].
      intros i Hi Hbit.
      destruct (lookup_differ code1 code2 (Z.to_nat i) Hlen) as [Heq|Hne]; [exact Heq|].
      specialize (Hdiff i Hi Hne).
      rewrite (codeSegment_in_code code1 bits1 i Hsize) in Hdiff by lia.
      rewrite Hbit in Hdiff. discriminate.
    + unfold exits in *. rewrite Hlen'. exact Hexit.
  - intros pc i v [Hlt [bits Hreach]] Hpush Hspan Hv.
    pose proof (reach_inv code1 Hgo _ _ Hreach) as ((Hpc & _) & _).
    assert (i < len code1) as Hi.
    { apply (lookup_code_lt code1 i v); [lia|exact Hv]. }
    destruct (result_span code1 Hgo fuel Hfuel pc bits bPUSH32 bits1 Hreach Hpush Hres)
      as (Hset & _).
    rewrite (codeSegment_in_code code1 bits1 i Hsize) by lia.
    rewrite Hset; [reflexivity|]. change (push_width (op_of bPUSH32)) with 32. exact Hspan.
Qed.

Lemma data_bytes_do_not_matter_witness :
  codeBitmap 3 [bPUSH1; bJUMPDEST; bJUMPDEST] = Ret [2; 0; 0; 0; 0].
Proof.
  apply (data_bytes_do_not_matter
           [bPUSH1; xff; bJUMPDEST] [bPUSH1; bJUMPDEST; bJUMPDEST] 3 [2; 0; 0; 0; 0]).
  - reflexivity.
  - reflexivity.
  - simpl; lia.
  - reflexivity.
  - intros i Hi Hne.
    assert (i = 0 ∨ i = 1 ∨ i = 2) as Hc by (unfold len in Hi; simpl in Hi; lia).
    destruct Hc as [->|[->| ->]].
    + exfalso. apply Hne. reflexivity.
    + reflexivity.
    + exfalso. apply Hne. reflexivity.
Defined.

(** ** The reference scan *)

Lemma mark_each_marks w : ∀ (bits : BitVec) pos,
  0 ≤ pos → (pos + Z.of_nat w) / 8 < Z.of_nat (length bits) →
  ∃ bits', mark_each w bits pos = Ret bits' ∧ marks pos (Z.of_nat w) bits bits'.
Proof.
  induction w as [|w IH]; intros bits pos Hpos Hin.
  - exists bits. split; [reflexivity|apply marks_none].
  - assert (pos / 8 ≤ (pos + Z.of_nat (S w)) / 8) by (apply Z.div_le_mono; lia).
    destruct (set1_marks bits pos) as (bits1 & Hset & Hm1); [lia|lia|].
    destruct (IH bits1 (pos + 1)) as (bits2 & Hrest & Hm2); [lia| |].
    + rewrite (marks_length _ _ _ _ Hm1).
      replace (pos + 1 + Z.of_nat w) with (pos + Z.of_nat (S w)) by lia. exact Hin.
    + exists bits2. simpl. rewrite Hset. simpl. split; [exact Hrest|].
      replace (Z.of_nat (S w)) with (1 + Z.of_nat w) by lia.
      apply (marks_trans pos 1 (Z.of_nat w) bits bits1 bits2); [lia|lia|exact Hm1|exact Hm2].
Qed.

Lemma marks_same_bits pos n (a a' b b' : BitVec) :
  same_bits a b → marks pos n a a' → marks pos n b b' → same_bits a' b'.
Proof.
  intros [Hl Hb] [Hla Hma] [Hlb Hmb]. split; [congruence|].
  intros i Hi. rewrite Hma, Hmb by exact Hi. rewrite Hb by exact Hi. reflexivity.
Qed.

(** The reference scan follows a run of the code's scan, iteration by
    iteration, on a vector with the same bits. *)
Lemma reference_follows (code : list byte) n pc b1 pcf bf :
  len code < 2 ^ 63 →
  run code n pc b1 pcf bf → exits code pcf → scan_inv code pc b1 →
  ∀ b2, same_bits b1 b2 →
  ∀ fuel, (n ≤ fuel)%nat →
  ∃ bf2, reference_scan fuel code pc b2 = Ret bf2 ∧ same_bits bf bf2.
Proof.
  intros Hgo Hrun Hexit.
  induction Hrun as [|n pc bits pa ba pb bb Hlt Hbody Hrun IH];
    intros Hinv b2 Hsame fuel Hfuel.
  - exists b2. split; [|exact Hsame].
    unfold exits in Hexit. rewrite (u64_len code Hgo) in Hexit.
    destruct fuel; simpl; destruct (Z.ltb_spec pc (len code)); try lia; reflexivity.
  - destruct fuel as [|fuel]; [lia|].
    destruct (step_shape code Hgo _ _ _ _ Hinv Hlt Hbody) as (b & Hb & -> & Hm & Hinv1).
    rewrite (u64_len code Hgo) in Hlt.
    destruct Hinv as ((Hpc & _) & Hsize & _).
    pose proof (push_width_range (op_of b)) as Hw.
    destruct (mark_each_marks (Z.to_nat (push_width (op_of b))) b2 (pc + 1))
      as (b2' & Hmark & Hm2); [lia| |].
    { rewrite <- (proj1 Hsame), Hsize. rewrite Z2Nat.id by lia.
      assert ((pc + 1 + push_width (op_of b)) / 8 ≤ (len code + 32) / 8)
        by (apply Z.div_le_mono; lia).
      assert ((len code + 32) / 8 = len code / 8 + 4)
        by (replace (len code + 32) with (len code + 4 * 8) by lia;
            apply Z.div_add; lia).
      lia. }
    rewrite Z2Nat.id in Hm2 by lia.
    destruct (IH Hexit Hinv1 b2' (marks_same_bits _ _ _ _ _ _ Hsame Hm Hm2) fuel)
      as (bf2 & Href & Hsame'); [lia|].
    exists bf2. split; [|exact Hsame'].
    simpl. destruct (Z.ltb_spec pc (len code)); [|lia].
    rewrite (opcode_at_lookup _ _ _ Hb). simpl. rewrite Hmark. simpl.
    replace (pc + push_width (op_of b) + 1) with (pc + 1 + push_width (op_of b)) by lia.
    exact Href.
Qed.

(** Claim C1.  In every state of the scan an iteration at [pc] on a byte
    of push width [w] sets exactly the bits [pc+1 .. pc+w] (chunks of 16,
    of 8, then a remainder below 8).  The vector that [codeBitmap] returns
    has the same length and the same bits as the vector of the reference
    scan, which marks the [w] bits one at a time; so the query gives the
    same answer on both at every offset below [len(code)]. *)
Theorem codeBitmap_refines_reference (code : list byte) (fuel : nat) :
  len code < 2 ^ 63 → (length code ≤ fuel)%nat →
  (∀ pc bits b, reach code pc bits → code !! Z.to_nat pc = Some b →
     ∃ bits',
       loop_body code pc bits = Ret (pc + 1 + push_width (op_of b), bits') ∧
       length bits' = length bits ∧
       ∀ i, 0 ≤ i →
         bit bits' i = bit bits i || in_span (pc + 1) (push_width (op_of b)) i) ∧
  ∃ bits ref,
    codeBitmap fuel code = Ret bits ∧
    classify_reference fuel code = Ret ref ∧
    length bits = length ref ∧
    (∀ i, 0 ≤ i → bit bits i = bit ref i) ∧
    (∀ pos, 0 ≤ pos < len code →
       codeSegment bits pos = codeSegment ref pos ∧
       codeSegment bits pos = Ret (negb (bit bits pos))).
Proof.
  intros Hgo Hfuel. split.
  - intros pc bits b Hreach Hb.
    destruct (step_inv code Hgo pc b bits (reach_inv code Hgo _ _ Hreach) Hb)
      as (bits' & Hbody & Hm & _).
    exists bits'. split; [exact Hbody|exact Hm].
  - destruct (codeBitmap_run code Hgo) as (n & pcf & bits & Hrun & Hexit & Hn & Hall).
    destruct (reference_follows code n 0 (make code) pcf bits Hgo Hrun Hexit
                (scan_inv_make code) (make code)) with (fuel := fuel)
      as (ref & Href & [Hl Hb]); [split; reflexivity|lia|].
    exists bits, ref. split; [apply Hall; exact Hfuel|]. split; [exact Href|].
    split; [exact Hl|]. split; [exact Hb|].
    intros pos Hpos.
    pose proof (result_length code Hgo fuel Hfuel bits (Hall fuel Hfuel)) as Hsize.
    rewrite (codeSegment_in_code code bits pos Hsize) by lia.
    rewrite (codeSegment_in_code code ref pos) by (first [rewrite <- Hl; exact Hsize | lia]).
    rewrite Hb by lia. split; reflexivity.
Qed.

Lemma codeBitmap_refines_reference_witness :
  ∃ bits ref,
    codeBitmap 2 [bSTOP; bPUSH32] = Ret bits ∧
    classify_reference 2 [bSTOP; bPUSH32] = Ret ref ∧
    length bits = length ref ∧
    (∀ i, 0 ≤ i → bit bits i = bit ref i) ∧
    (∀ pos, 0 ≤ pos < len [bSTOP; bPUSH32] →
       codeSegment bits pos = codeSegment ref pos ∧
       codeSegment bits pos = Ret (negb (bit bits pos))).
Proof.
  apply (codeBitmap_refines_reference [bSTOP; bPUSH32] 2);
    [reflexivity | simpl; lia].
Defined.

(** * Further properties of the setters and of the scan *)

(** ** Reads and writes out of range *)

Lemma load_panic (bits : BitVec) j :
  0 ≤ j → Z.of_nat (length bits) ≤ j → load bits j = Panic.
Proof.
  intros Hj Hout. unfold load.
  rewrite (lookup_ge_None_2 bits (Z.to_nat j)) by lia. reflexivity.
Qed.

Lemma store_panic (bits : BitVec) j v :
  0 ≤ j → Z.of_nat (length bits) ≤ j → store bits j v = Panic.
Proof.
  intros Hj Hout. unfold store.
  rewrite bool_decide_eq_false_2 by lia. reflexivity.
Qed.

Lemma or_store_panic (bits : BitVec) j v :
  0 ≤ j → Z.of_nat (length bits) ≤ j → or_store bits j v = Panic.
Proof.
  intros Hj Hout. unfold or_store. rewrite load_panic by assumption. reflexivity.
Qed.

Lemma codeSegment_cases (bits : BitVec) pos :
  0 ≤ pos →
  codeSegment bits pos
  = if pos / 8 <? Z.of_nat (length bits) then Ret (negb (bit bits pos)) else Panic.
Proof.
  intros Hpos. assert (0 ≤ pos / 8) by (apply Z.div_pos; lia).
  destruct (Z.ltb_spec (pos / 8) (Z.of_nat (length bits))).
  - apply codeSegment_bit; assumption.
  - unfold codeSegment. rewrite load_panic by assumption. reflexivity.
Qed.

(** ** [set1] on any vector *)

(** X1.  [set1] panics exactly when the byte of [pos] is outside the
    vector.  Otherwise it keeps the length, the query then answers "data"
    at [pos], and at every other offset the bit and the answer of the
    query are what they were. *)
Theorem set1_then_codeSegment (bits : BitVec) (pos : Z) :
  0 ≤ pos →
  (Z.of_nat (length bits) ≤ pos / 8 → set1 bits pos = Panic) ∧
  (pos / 8 < Z.of_nat (length bits) →
   ∃ bits', set1 bits pos = Ret bits' ∧
     length bits' = length bits ∧
     codeSegment bits' pos = Ret false ∧
     ∀ i, 0 ≤ i → i ≠ pos →
       bit bits' i = bit bits i ∧ codeSegment bits' i = codeSegment bits i).
Proof.
  intros Hpos. assert (0 ≤ pos / 8) by (apply Z.div_pos; lia). split.
  - intros Hout. unfold set1. apply or_store_panic; assumption.
  - intros Hin.
    destruct (set1_marks bits pos Hpos Hin) as (bits' & Hset & Hl & Hm).
    exists bits'. split; [exact Hset|]. split; [exact Hl|]. split.
    + rewrite codeSegment_bit by (rewrite ?Hl; lia).
      rewrite Hm by lia. unfold in_span.
      replace ((pos <=? pos) && (pos <? pos + 1)) with true by (symmetry; bool_cases).
      rewrite orb_true_r. reflexivity.
    + intros i Hi Hne.
      assert (bit bits' i = bit bits i) as Hsame.
      { rewrite Hm by lia. unfold in_span.
        replace ((pos <=? i) && (i <? pos + 1)) with false by (symmetry; bool_cases).
        apply orb_false_r. }
      split; [exact Hsame|].
      rewrite !codeSegment_cases by lia. rewrite Hl, Hsame. reflexivity.
Qed.

Lemma set1_then_codeSegment_witness :
  ∃ bits', set1 [255; 0] 9 = Ret bits' ∧
     length bits' = length [255; 0] ∧
     codeSegment bits' 9 = Ret false ∧
     ∀ i, 0 ≤ i → i ≠ 9 →
       bit bits' i = bit [255; 0] i ∧ codeSegment bits' i = codeSegment [255; 0] i.
Proof.
  apply (set1_then_codeSegment [255; 0] 9); [lia | reflexivity].
Defined.

(** ** [set8], [set16] and [setN] on any vector *)

Ltac span_cases :=
  unfold in_span;
  repeat match goal with
    | |- context [?a <? ?b] => destruct (Z.ltb_spec a b)
    | |- context [?a <=? ?b] => destruct (Z.leb_spec a b)
    end;
  simpl; try (exfalso; lia);
  try reflexivity; try apply orb_true_r; try apply orb_false_r;
  try (symmetry; apply orb_false_r); try (symmetry; apply orb_true_r).

Lemma set8_short (bits : BitVec) pos :
  0 ≤ pos < 2 ^ 64 → Z.of_nat (length bits) ≤ pos / 8 + 1 →
  set8 bits pos = Panic.
Proof.
  intros Hpos Hout.
  pose proof (Z.div_mod pos 8 ltac:(lia)).
  pose proof (Z.mod_pos_bound pos 8 ltac:(lia)).
  assert (0 ≤ pos / 8) by (apply Z.div_pos; lia).
  unfold set8.
  destruct (Z.le_gt_cases (Z.of_nat (length bits)) (pos / 8)) as [Hfirst|Hfirst].
  - rewrite or_store_panic by lia. reflexivity.
  - rewrite or_store_ok by lia. simpl. rewrite u64_small by lia.
    apply store_panic; [lia|rewrite length_insert; lia].
Qed.

Lemma set8_effect (bits : BitVec) pos :
  0 ≤ pos < 2 ^ 64 → pos / 8 + 1 < Z.of_nat (length bits) →
  ∃ bits', set8 bits pos = Ret bits' ∧
    length bits' = length bits ∧
    ∀ i, 0 ≤ i →
      bit bits' i =
        if in_span pos 8 i then true
        else if in_span (pos + 8) (8 - pos mod 8) i then false
        else bit bits i.
Proof.
  intros Hpos Hin.
  pose proof (Z.div_mod pos 8 ltac:(lia)).
  pose proof (Z.mod_pos_bound pos 8 ltac:(lia)).
  assert (0 ≤ pos / 8) by (apply Z.div_pos; lia).
  unfold set8. rewrite or_store_ok by lia. simpl.
  rewrite u64_small by lia.
  rewrite store_ok by (rewrite length_insert; lia).
  eexists. split; [reflexivity|]. split; [rewrite !length_insert; reflexivity|].
  intros i Hi.
  rewrite bit_insert by (rewrite ?length_insert; lia).
  rewrite bit_or_insert by lia.
  pose proof (Z.div_mod i 8 ltac:(lia)).
  pose proof (Z.mod_pos_bound i 8 ltac:(lia)).
  destruct (Z.eqb_spec (i / 8) (pos / 8 + 1)) as [He|Hne].
  - rewrite mask8_not_bit by lia. span_cases.
  - destruct (Z.eqb_spec (i / 8) (pos / 8)) as [He'|Hne'].
    + rewrite mask8_bit by lia. span_cases.
    + span_cases.
Qed.

(** X2.  [set8] always touches two bytes: it panics exactly when byte
    [pos/8 + 1] is outside the vector, also when [pos] is a multiple of
    8.  Otherwise it sets the 8 bits from [pos], clears the bits above
    them in byte [pos/8 + 1] (the second store is a plain store) and
    leaves every other bit. *)
Theorem set8_any_vector (bits : BitVec) (pos : Z) :
  0 ≤ pos < 2 ^ 64 →
  (Z.of_nat (length bits) ≤ pos / 8 + 1 → set8 bits pos = Panic) ∧
  (pos / 8 + 1 < Z.of_nat (length bits) →
   ∃ bits', set8 bits pos = Ret bits' ∧
     length bits' = length bits ∧
     ∀ i, 0 ≤ i →
       bit bits' i =
         if in_span pos 8 i then true
         else if in_span (pos + 8) (8 - pos mod 8) i then false
         else bit bits i).
Proof.
  intros Hpos. split.
  - apply set8_short. exact Hpos.
  - apply set8_effect. exact Hpos.
Qed.

Lemma set8_any_vector_witness :
  ∃ bits', set8 [0; 255; 255] 3 = Ret bits' ∧
     length bits' = length [0; 255; 255] ∧
     ∀ i, 0 ≤ i →
       bit bits' i =
         if in_span 3 8 i then true
         else if in_span (3 + 8) (8 - 3 mod 8) i then false
         else bit [0; 255; 255] i.
Proof.
  apply (set8_any_vector [0; 255; 255] 3); [split; [lia | reflexivity] | reflexivity].
Defined.

Lemma set16_short (bits : BitVec) pos :
  0 ≤ pos < 2 ^ 64 → Z.of_nat (length bits) ≤ pos / 8 + 2 →
  set16 bits pos = Panic.
Proof.
  intros Hpos Hout.
  pose proof (Z.div_mod pos 8 ltac:(lia)).
  pose proof (Z.mod_pos_bound pos 8 ltac:(lia)).
  assert (0 ≤ pos / 8) by (apply Z.div_pos; lia).
  unfold set16.
  destruct (Z.le_gt_cases (Z.of_nat (length bits)) (pos / 8)) as [Hfirst|Hfirst].
  - rewrite or_store_panic by lia. reflexivity.
  - rewrite or_store_ok by lia. simpl. rewrite !u64_small by lia.
    destruct (Z.le_gt_cases (Z.of_nat (length bits)) (pos / 8 + 1)) as [Hsnd|Hsnd].
    + rewrite store_panic; [reflexivity|lia|rewrite length_insert; lia].
    + rewrite store_ok by (rewrite length_insert; lia). simpl.
      apply store_panic; [lia|rewrite !length_insert; lia].
Qed.

Lemma set16_effect (bits : BitVec) pos :
  0 ≤ pos < 2 ^ 64 → pos / 8 + 2 < Z.of_nat (length bits) →
  ∃ bits', set16 bits pos = Ret bits' ∧
    length bits' = length bits ∧
    ∀ i, 0 ≤ i →
      bit bits' i =
        if in_span pos 16 i then true
        else if in_span (pos + 16) (8 - pos mod 8) i then false
        else bit bits i.
Proof.
  intros Hpos Hin.
  pose proof (Z.div_mod pos 8 ltac:(lia)).
  pose proof (Z.mod_pos_bound pos 8 ltac:(lia)).
  assert (0 ≤ pos / 8) by (apply Z.div_pos; lia).
  unfold set16. rewrite or_store_ok by lia. simpl.
  rewrite !u64_small by lia.
  rewrite store_ok by (rewrite length_insert; lia). simpl.
  rewrite store_ok by (rewrite !length_insert; lia).
  eexists. split; [reflexivity|]. split; [rewrite !length_insert; reflexivity|].
  intros i Hi.
  do 2 (rewrite bit_insert by (rewrite ?length_insert; lia)).
  rewrite bit_or_insert by lia.
  pose proof (Z.div_mod i 8 ltac:(lia)).
  pose proof (Z.mod_pos_bound i 8 ltac:(lia)).
  destruct (Z.eqb_spec (i / 8) (pos / 8 + 2)) as [He|Hne].
  - rewrite mask8_not_bit by lia. span_cases.
  - destruct (Z.eqb_spec (i / 8) (pos / 8 + 1)) as [He1|Hne1].
    + rewrite full_bit by lia. span_cases.
    + destruct (Z.eqb_spec (i / 8) (pos / 8)) as [He'|Hne'].
      * rewrite mask8_bit by lia. span_cases.
      * span_cases.
Qed.

(** X3.  [set16] always touches three bytes: it panics exactly when byte
    [pos/8 + 2] is outside the vector.  Otherwise it sets the 16 bits from
    [pos], clears the bits above them in byte [pos/8 + 2] and leaves every
    other bit. *)
Theorem set16_any_vector (bits : BitVec) (pos : Z) :
  0 ≤ pos < 2 ^ 64 →
  (Z.of_nat (length bits) ≤ pos / 8 + 2 → set16 bits pos = Panic) ∧
  (pos / 8 + 2 < Z.of_nat (length bits) →
   ∃ bits', set16 bits pos = Ret bits' ∧
     length bits' = length bits ∧
     ∀ i, 0 ≤ i →
       bit bits' i =
         if in_span pos 16 i then true
         else if in_span (pos + 16) (8 - pos mod 8) i then false
         else bit bits i).
Proof.
  intros Hpos. split.
  - apply set16_short. exact Hpos.
  - apply set16_effect. exact Hpos.
Qed.

Lemma set16_any_vector_witness :
  ∃ bits', set16 [0; 0; 255; 255] 3 = Ret bits' ∧
     length bits' = length [0; 0; 255; 255] ∧
     ∀ i, 0 ≤ i →
       bit bits' i =
         if in_span 3 16 i then true
         else if in_span (3 + 16) (8 - 3 mod 8) i then false
         else bit [0; 0; 255; 255] i.
Proof.
  apply (set16_any_vector [0; 0; 255; 255] 3); [split; [lia | reflexivity] | reflexivity].
Defined.

Lemma setN_short (bits : BitVec) n pos :
  2 ≤ n ≤ 7 → 0 ≤ pos < 2 ^ 64 →
  Z.of_nat (length bits) ≤ pos / 8 ∨
  (8 < pos mod 8 + n ∧ Z.of_nat (length bits) ≤ pos / 8 + 1) →
  setN bits (setN_mask n) pos = Panic.
Proof.
  intros Hn Hpos Hout.
  pose proof (Z.div_mod pos 8 ltac:(lia)).
  pose proof (Z.mod_pos_bound pos 8 ltac:(lia)).
  assert (0 ≤ pos / 8) by (apply Z.div_pos; lia).
  unfold setN.
  destruct (Z.le_gt_cases (Z.of_nat (length bits)) (pos / 8)) as [Hfirst|Hfirst].
  - rewrite or_store_panic by lia. reflexivity.
  - destruct Hout as [Hout|[Hspill Hout]]; [lia|].
    rewrite or_store_ok by lia. simpl.
    rewrite maskN_high_zero by lia.
    destruct (Z.leb_spec (pos mod 8 + n) 8); [lia|].
    rewrite u64_small by lia.
    apply store_panic; [lia|rewrite length_insert; lia].
Qed.

Lemma setN_effect_fit (bits : BitVec) n pos :
  2 ≤ n ≤ 7 → 0 ≤ pos < 2 ^ 64 → pos mod 8 + n ≤ 8 →
  pos / 8 < Z.of_nat (length bits) →
  ∃ bits', setN bits (setN_mask n) pos = Ret bits' ∧
    length bits' = length bits ∧
    ∀ i, 0 ≤ i → bit bits' i = bit bits i || in_span pos n i.
Proof.
  intros Hn Hpos Hfit Hin.
  pose proof (Z.div_mod pos 8 ltac:(lia)).
  pose proof (Z.mod_pos_bound pos 8 ltac:(lia)).
  assert (0 ≤ pos / 8) by (apply Z.div_pos; lia).
  unfold setN. rewrite or_store_ok by lia. simpl.
  rewrite maskN_high_zero by lia.
  destruct (Z.leb_spec (pos mod 8 + n) 8); [|lia].
  eexists. split; [reflexivity|]. split; [rewrite !length_insert; reflexivity|].
  intros i Hi. rewrite bit_or_insert by lia.
  pose proof (Z.div_mod i 8 ltac:(lia)).
  pose proof (Z.mod_pos_bound i 8 ltac:(lia)).
  destruct (Z.eqb_spec (i / 8) (pos / 8)) as [He'|Hne'].
  - rewrite maskN_low_bit by lia. f_equal. unfold in_span. bool_cases.
  - span_cases.
Qed.

Lemma setN_effect_spill (bits : BitVec) n pos :
  2 ≤ n ≤ 7 → 0 ≤ pos < 2 ^ 64 → 8 < pos mod 8 + n →
  pos / 8 + 1 < Z.of_nat (length bits) →
  ∃ bits', setN bits (setN_mask n) pos = Ret bits' ∧
    length bits' = length bits ∧
    ∀ i, 0 ≤ i →
      bit bits' i =
        if in_span pos n i then true
        else if in_span (pos + n) (16 - pos mod 8 - n) i then false
        else bit bits i.
Proof.
  intros Hn Hpos Hspill Hin.
  pose proof (Z.div_mod pos 8 ltac:(lia)).
  pose proof (Z.mod_pos_bound pos 8 ltac:(lia)).
  assert (0 ≤ pos / 8) by (apply Z.div_pos; lia).
  unfold setN. rewrite or_store_ok by lia. simpl.
  rewrite maskN_high_zero by lia.
  destruct (Z.leb_spec (pos mod 8 + n) 8); [lia|].
  rewrite u64_small by lia.
  rewrite store_ok by (rewrite length_insert; lia).
  eexists. split; [reflexivity|]. split; [rewrite !length_insert; reflexivity|].
  intros i Hi.
  rewrite bit_insert by (rewrite ?length_insert; lia).
  rewrite bit_or_insert by lia.
  pose proof (Z.div_mod i 8 ltac:(lia)).
  pose proof (Z.mod_pos_bound i 8 ltac:(lia)).
  destruct (Z.eqb_spec (i / 8) (pos / 8 + 1)) as [He|Hne].
  - rewrite maskN_high_bit by lia. span_cases.
  - destruct (Z.eqb_spec (i / 8) (pos / 8)) as [He'|Hne'].
    + rewrite maskN_low_bit by lia. span_cases.
    + span_cases.
Qed.

(** X4.  [setN] with the mask of [n] bits, [2 <= n <= 7].  When the [n]
    bits fit the byte of [pos] it is an or into that byte: it panics
    exactly when that byte is outside the vector and nothing is cleared.
    When they spill, it panics exactly when byte [pos/8 + 1] is outside,
    and the plain store of the second byte clears the bits above the
    span there. *)
Theorem setN_any_vector (bits : BitVec) (n pos : Z) :
  2 ≤ n ≤ 7 → 0 ≤ pos < 2 ^ 64 →
  (pos mod 8 + n ≤ 8 →
     (Z.of_nat (length bits) ≤ pos / 8 → setN bits (setN_mask n) pos = Panic) ∧
     (pos / 8 < Z.of_nat (length bits) →
      ∃ bits', setN bits (setN_mask n) pos = Ret bits' ∧
        length bits' = length bits ∧
        ∀ i, 0 ≤ i → bit bits' i = bit bits i || in_span pos n i)) ∧
  (8 < pos mod 8 + n →
     (Z.of_nat (length bits) ≤ pos / 8 + 1 → setN bits (setN_mask n) pos = Panic) ∧
     (pos / 8 + 1 < Z.of_nat (length bits) →
      ∃ bits', setN bits (setN_mask n) pos = Ret bits' ∧
        length bits' = length bits ∧
        ∀ i, 0 ≤ i →
          bit bits' i =
            if in_span pos n i then true
            else if in_span (pos + n) (16 - pos mod 8 - n) i then false
            else bit bits i)).
Proof.
  intros Hn Hpos. split; intros Hfit; split.
  - intros Hout. apply setN_short; [exact Hn|exact Hpos|left; exact Hout].
  - apply setN_effect_fit; assumption.
  - intros Hout. apply setN_short; [exact Hn|exact Hpos|right; split; assumption].
  - apply setN_effect_spill; assumption.
Qed.

Lemma setN_any_vector_witness :
  ∃ bits', setN [0; 255; 255] (setN_mask 5) 6 = Ret bits' ∧
    length bits' = length [0; 255; 255] ∧
    ∀ i, 0 ≤ i →
      bit bits' i =
        if in_span 6 5 i then true
        else if in_span (6 + 5) (16 - 6 mod 8 - 5) i then false
        else bit [0; 255; 255] i.
Proof.
  apply (setN_any_vector [0; 255; 255] 5 6);
    [lia | split; [lia | reflexivity] | reflexivity | reflexivity].
Defined.

(** ** [set16] is [set8] twice *)

Lemma set8_bytes (bits : BitVec) pos :
  0 ≤ pos < 2 ^ 64 → pos / 8 + 1 < Z.of_nat (length bits) →
  set8 bits pos
  = Ret (<[Z.to_nat (pos / 8 + 1) := not8 (u8 (Z.shiftl 255 (pos mod 8)))]>
           (<[Z.to_nat (pos / 8) :=
                Z.lor (byte_at bits (pos / 8)) (u8 (Z.shiftl 255 (pos mod 8)))]> bits)).
Proof.
  intros Hpos Hin.
  pose proof (Z.div_mod pos 8 ltac:(lia)).
  pose proof (Z.mod_pos_bound pos 8 ltac:(lia)).
  assert (0 ≤ pos / 8) by (apply Z.div_pos; lia).
  unfold set8. rewrite or_store_ok by lia. simpl. rewrite u64_small by lia.
  apply store_ok. rewrite length_insert. lia.
Qed.

Lemma set16_bytes (bits : BitVec) pos :
  0 ≤ pos < 2 ^ 64 → pos / 8 + 2 < Z.of_nat (length bits) →
  set16 bits pos
  = Ret (<[Z.to_nat (pos / 8 + 2) := not8 (u8 (Z.shiftl 255 (pos mod 8)))]>
           (<[Z.to_nat (pos / 8 + 1) := 255]>
              (<[Z.to_nat (pos / 8) :=
                   Z.lor (byte_at bits (pos / 8)) (u8 (Z.shiftl 255 (pos mod 8)))]> bits))).
Proof.
  intros Hpos Hin.
  pose proof (Z.div_mod pos 8 ltac:(lia)).
  pose proof (Z.mod_pos_bound pos 8 ltac:(lia)).
  assert (0 ≤ pos / 8) by (apply Z.div_pos; lia).
  unfold set16. rewrite or_store_ok by lia. simpl. rewrite !u64_small by lia.
  rewrite store_ok by (rewrite length_insert; lia). simpl.
  apply store_ok. rewrite !length_insert. lia.
Qed.

Lemma mask8_lor_not k : 0 ≤ k < 8 →
  Z.lor (not8 (u8 (Z.shiftl 255 k))) (u8 (Z.shiftl 255 k)) = 255.
Proof. intros Hk. split8 k; reflexivity. Qed.

(** X5.  On every vector, in or out of range, [set16] at [pos] is [set8]
    at [pos] followed by [set8] at [pos + 8]: the same outcome, and the
    same bytes when it returns. *)
Theorem set16_is_set8_twice (bits : BitVec) (pos : Z) :
  0 ≤ pos → pos + 8 < 2 ^ 64 →
  set16 bits pos = (let* bits1 := set8 bits pos in set8 bits1 (pos + 8)).
Proof.
  intros Hpos Hmax.
  pose proof (Z.div_mod pos 8 ltac:(lia)).
  pose proof (Z.mod_pos_bound pos 8 ltac:(lia)).
  assert (0 ≤ pos / 8) by (apply Z.div_pos; lia).
  assert ((pos + 8) / 8 = pos / 8 + 1) as Hq
    by (replace (pos + 8) with (pos + 1 * 8) by lia; apply Z.div_add; lia).
  assert ((pos + 8) mod 8 = pos mod 8) as Hr
    by (replace (pos + 8) with (pos + 1 * 8) by lia; apply Z.mod_add; lia).
  destruct (Z.le_gt_cases (Z.of_nat (length bits)) (pos / 8 + 1)) as [Hshort|Hlong].
  - (* the second byte is missing: both panic at once *)
    rewrite (set16_short bits pos) by lia.
    rewrite (set8_short bits pos) by lia.
    reflexivity.
  - rewrite (set8_bytes bits pos) by lia. simpl.
    destruct (Z.le_gt_cases (Z.of_nat (length bits)) (pos / 8 + 2)) as [Hshort2|Hlong2].
    + rewrite (set16_short bits pos) by lia.
      rewrite (set8_short _ (pos + 8)) by (rewrite ?length_insert; lia).
      reflexivity.
    + rewrite (set16_bytes bits pos) by lia.
      rewrite (set8_bytes _ (pos + 8)) by (rewrite ?length_insert; lia).
      rewrite Hq, Hr.
      rewrite byte_at_insert by (rewrite ?length_insert; lia).
      rewrite Z.eqb_refl. rewrite mask8_lor_not by lia.
      replace (pos / 8 + 1 + 1) with (pos / 8 + 2) by lia.
      rewrite list_insert_insert_eq. reflexivity.
Qed.

Lemma set16_is_set8_twice_witness :
  set16 [1; 2; 3; 4] 5 = (let* bits1 := set8 [1; 2; 3; 4] 5 in set8 bits1 (5 + 8)).
Proof.
  apply (set16_is_set8_twice [1; 2; 3; 4] 5); [lia | reflexivity].
Defined.

(** ** Code without push opcodes *)

Lemma scan_no_push (code : list byte) (bits : BitVec) fuel : ∀ pc,
  len code < 2 ^ 63 →
  Forall (λ b, ¬ (PUSH1 ≤ op_of b ≤ PUSH32)) code →
  0 ≤ pc → len code - pc ≤ Z.of_nat fuel →
  scan fuel code pc bits = Ret bits.
Proof.
  induction fuel as [|fuel IH]; intros pc Hgo Hno Hpc Hfuel.
  - simpl. rewrite (u64_len code Hgo).
    destruct (Z.ltb_spec pc (len code)); [lia|reflexivity].
  - simpl. rewrite (u64_len code Hgo).
    destruct (Z.ltb_spec pc (len code)) as [Hlt|Hge]; [|reflexivity].
    destruct (lookup_code code pc) as [b Hb]; [lia|].
    rewrite (loop_body_other code pc b bits Hb (Forall_lookup_1 _ _ _ _ Hno Hb)).
    simpl. rewrite u64_small by lia.
    apply IH; [exact Hgo|exact Hno|lia|lia].
Qed.

(** X6.  On a code without push opcode (the empty code included)
    [codeBitmapInternal] never reads or writes the vector: it returns the
    vector it was given, of any length and content.  So [codeBitmap]
    returns the zeroed array, and every offset is an instruction
    start. *)
Theorem no_push_leaves_vector (code : list byte) (bits : BitVec) (fuel : nat) :
  len code < 2 ^ 63 →
  Forall (λ b, ¬ (PUSH1 ≤ op_of b ≤ PUSH32)) code →
  (length code ≤ fuel)%nat →
  codeBitmapInternal fuel code bits = Ret bits ∧
  codeBitmap fuel code = Ret (make code) ∧
  ∀ pos, 0 ≤ pos < len code → codeSegment (make code) pos = Ret true.
Proof.
  intros Hgo Hno Hfuel.
  assert (∀ b : BitVec, codeBitmapInternal fuel code b = Ret b) as Hany.
  { intros b. unfold codeBitmapInternal.
    apply scan_no_push; [exact Hgo|exact Hno|lia|unfold len; lia]. }
  split; [apply Hany|]. split; [apply Hany|].
  intros pos Hpos.
  rewrite (codeSegment_in_code code (make code) pos (length_make code)) by lia.
  rewrite bit_make. reflexivity.
Qed.

Lemma no_push_leaves_vector_witness :
  codeBitmapInternal 2 [bSTOP; bJUMPDEST] [255] = Ret [255] ∧
  codeBitmap 2 [bSTOP; bJUMPDEST] = Ret (make [bSTOP; bJUMPDEST]) ∧
  ∀ pos, 0 ≤ pos < len [bSTOP; bJUMPDEST] →
         codeSegment (make [bSTOP; bJUMPDEST]) pos = Ret true.
Proof.
  apply (no_push_leaves_vector [bSTOP; bJUMPDEST] [255] 2).
  - reflexivity.
  - repeat constructor; vm_compute; intros [H1 H2]; apply H1 || apply H2; reflexivity.
  - simpl; lia.
Defined.

(** ** The padding is needed *)

Lemma loop16_unfold fuel numbits pc (bits : BitVec) :
  loop16 (S fuel) numbits pc bits
  = if 16 <=? numbits then
      let* bits := set16 bits pc in
      loop16 fuel (u8 (numbits - 16)) (u64 (pc + 16)) bits
    else Ret (numbits, pc, bits).
Proof. reflexivity. Qed.

Lemma set16_length (bits bits' : BitVec) pos :
  set16 bits pos = Ret bits' → length bits' = length bits.
Proof.
  unfold set16, or_store, load, store. intros H.
  destruct (bits !! Z.to_nat (pos / 8)); [|discriminate]. simpl in H.
  repeat match type of H with
    | context [bool_decide ?P] => destruct (bool_decide P); simpl in H
    end; try discriminate.
  injection H as <-. rewrite !length_insert. reflexivity.
Qed.

(** A [PUSH32] at [pc] panics on a vector that ends before byte
    [(pc + 1) / 8 + 4]. *)
Lemma loop_body_push32_short (code : list byte) pc (bits : BitVec) :
  0 ≤ pc → pc + 33 < 2 ^ 64 →
  code !! Z.to_nat pc = Some bPUSH32 →
  Z.of_nat (length bits) ≤ (pc + 1) / 8 + 4 →
  loop_body code pc bits = Panic.
Proof.
  intros Hpc Hmax Hb Hshort.
  unfold loop_body. rewrite (opcode_at_lookup _ _ _ Hb).
  change (op_of bPUSH32) with 127. cbn [bind].
  change (int8 127 <? int8 PUSH1) with false.
  change (u8 (127 - PUSH1 + 1)) with 32. cbn iota.
  change (8 <=? 32) with true. cbn iota.
  change (Z.to_nat 32) with 32%nat.
  rewrite u64_small by lia.
  rewrite loop16_unfold. change (16 <=? 32) with true. cbn iota.
  assert ((pc + 1 + 16) / 8 = (pc + 1) / 8 + 2) as Hq
    by (replace (pc + 1 + 16) with (pc + 1 + 2 * 8) by lia; apply Z.div_add; lia).
  destruct (set16 bits (pc + 1)) as [bits1| |] eqn:Hfirst; cbn [bind];
    [|reflexivity|].
  - rewrite u64_small by lia. change (u8 (32 - 16)) with 16.
    rewrite loop16_unfold. change (16 <=? 16) with true. cbn iota.
    rewrite (set16_short bits1 (pc + 1 + 16)); [reflexivity|lia|].
    rewrite (set16_length _ _ _ Hfirst). lia.
  - (* [set16] has no loop: it never runs out of fuel *)
    exfalso. unfold set16, or_store, load, store in Hfirst.
    destruct (bits !! Z.to_nat ((pc + 1) / 8)); [|discriminate]. simpl in Hfirst.
    repeat match type of Hfirst with
      | context [bool_decide ?P] => destruct (bool_decide P); simpl in Hfirst
      end; discriminate.
Qed.

Lemma scan_past_no_push (pre rest : list byte) (bits : BitVec) k : ∀ fuel pc,
  len (pre ++ rest) < 2 ^ 63 →
  Forall (λ b, ¬ (PUSH1 ≤ op_of b ≤ PUSH32)) pre →
  0 ≤ pc → pc + Z.of_nat k = len pre → rest ≠ [] →
  scan (k + fuel) (pre ++ rest) pc bits = scan fuel (pre ++ rest) (len pre) bits.
Proof.
  induction k as [|k IH]; intros fuel pc Hgo Hno Hpc Hk Hrest.
  - simpl. replace pc with (len pre) by lia. reflexivity.
  - assert (len pre < len (pre ++ rest)) as Hlen.
    { unfold len. rewrite length_app. destruct rest; [contradiction|simpl; lia]. }
    change (S k + fuel)%nat with (S (k + fuel)). simpl scan.
    rewrite (u64_len _ Hgo).
    destruct (Z.ltb_spec pc (len (pre ++ rest))) as [Hlt|Hge]; [|lia].
    destruct (lookup_lt_is_Some_2 pre (Z.to_nat pc)) as [b Hb];
      [unfold len in Hk; lia|].
    assert ((pre ++ rest) !! Z.to_nat pc = Some b) as Hb'
      by (apply lookup_app_l_Some; exact Hb).
    rewrite (loop_body_other _ pc b bits Hb' (Forall_lookup_1 _ _ _ _ Hno Hb)).
    cbn [bind]. rewrite u64_small by lia.
    apply IH; [exact Hgo|exact Hno|lia|lia|exact Hrest].
Qed.

(** X7.  The 4 bytes of padding are all needed.  For every code that
    ends with a [PUSH32] after bytes that are no push, the scan panics on
    any vector of [len(code)/8 + 1 + 3] bytes or less. *)
Theorem final_push32_needs_padding (pre : list byte) (bits : BitVec) (fuel : nat) :
  len (pre ++ [bPUSH32]) < 2 ^ 63 →
  Forall (λ b, ¬ (PUSH1 ≤ op_of b ≤ PUSH32)) pre →
  (length (pre ++ [bPUSH32]) ≤ fuel)%nat →
  Z.of_nat (length bits) ≤ len (pre ++ [bPUSH32]) / 8 + 1 + 3 →
  codeBitmapInternal fuel (pre ++ [bPUSH32]) bits = Panic.
Proof.
  intros Hgo Hno Hfuel Hshort.
  assert (len (pre ++ [bPUSH32]) = len pre + 1) as Hlen
    by (unfold len; rewrite length_app; simpl; lia).
  rewrite length_app in Hfuel. simpl in Hfuel.
  unfold codeBitmapInternal.
  replace fuel with (length pre + (fuel - length pre))%nat by lia.
  rewrite (scan_past_no_push pre [bPUSH32] bits (length pre));
    [|exact Hgo|exact Hno|lia|unfold len; lia|discriminate].
  destruct (fuel - length pre)%nat as [|rest] eqn:Hrest; [lia|].
  simpl scan. rewrite (u64_len _ Hgo).
  destruct (Z.ltb_spec (len pre) (len (pre ++ [bPUSH32]))) as [Hlt|Hge]; [|lia].
  rewrite (loop_body_push32_short (pre ++ [bPUSH32]) (len pre) bits);
    [reflexivity|unfold len; lia|unfold len in *; lia| |].
  - rewrite lookup_app_r by (unfold len; lia).
    replace (Z.to_nat (len pre) - length pre)%nat with 0%nat by (unfold len; lia).
    reflexivity.
  - rewrite Hlen in Hshort. lia.
Qed.

Lemma final_push32_needs_padding_witness :
  codeBitmapInternal 2 ([bSTOP] ++ [bPUSH32]) [0; 0; 0; 0] = Panic.
Proof.
  apply (final_push32_needs_padding [bSTOP] [0; 0; 0; 0] 2).
  - reflexivity.
  - repeat constructor; vm_compute; intros [H1 H2]; apply H1; reflexivity.
  - simpl; lia.
  - vm_compute. discriminate.
Defined.

(** ** Instruction starts are the evaluated offsets *)

Section Starts.

Variable code : list byte.
Hypothesis go_len : len code < 2 ^ 63.

(** Below the cursor every offset is marked or was evaluated. *)
Lemma reach_no_gap n : ∀ pc bits,
  run code n 0 (make code) pc bits →
  ∀ i, 0 ≤ i < pc → bit bits i = true ∨ evaluated code i.
Proof.
  induction n as [|n IH]; intros pc bits Hrun i Hi.
  - inversion Hrun; subst. lia.
  - destruct (run_last code n 0 (make code) pc bits Hrun)
      as (pa & ba & Hpre & Hlt & Hbody).
    assert (reach code pa ba) as Hreach by (exists n; exact Hpre).
    destruct (step_shape code go_len _ _ _ _ (reach_inv code go_len _ _ Hreach) Hlt Hbody)
      as (b & Hb & -> & [_ Hm] & _).
    destruct (Z.lt_trichotomy i pa) as [Hbelow|[->|Habove]].
    + destruct (IH _ _ Hpre i ltac:(lia)) as [Hset|Hev]; [left|right; exact Hev].
      rewrite Hm by lia. rewrite Hset. reflexivity.
    + right. split; [exact Hlt|]. exists ba. exact Hreach.
    + left. rewrite Hm by lia. unfold in_span.
      replace ((pa + 1 <=? i) && (i <? pa + 1 + push_width (op_of b))) with true
        by (symmetry; bool_cases).
      apply orb_true_r.
Qed.

End Starts.

(** X8.  Below [len(code)] the instruction starts of the result are
    exactly the offsets whose byte the scan evaluated as an opcode: an
    offset is either evaluated or marked as data, never both and never
    neither. *)
Theorem instruction_starts_are_evaluated (code : list byte) (fuel : nat) :
  len code < 2 ^ 63 → (length code ≤ fuel)%nat →
  ∃ bits, codeBitmap fuel code = Ret bits ∧
    ∀ pos, 0 ≤ pos < len code →
      (codeSegment bits pos = Ret true ↔ evaluated code pos) ∧
      (codeSegment bits pos = Ret false ↔ ¬ evaluated code pos).
Proof.
  intros Hgo Hfuel.
  destruct (codeBitmap_run code Hgo) as (n & pcf & bits & Hrun & Hexit & _ & Hall).
  pose proof (Hall fuel Hfuel) as Hres.
  exists bits. split; [exact Hres|].
  pose proof (result_length code Hgo fuel Hfuel bits Hres) as Hsize.
  unfold exits in Hexit. rewrite (u64_len code Hgo) in Hexit.
  assert (∀ pos, 0 ≤ pos < len code → bit bits pos = false ↔ evaluated code pos) as Hiff.
  { intros pos Hpos. split.
    - intros Hclear.
      destruct (reach_no_gap code Hgo n pcf bits Hrun pos ltac:(lia)) as [Hset|Hev];
        [congruence|exact Hev].
    - intros [_ [b0 Hreach]].
      destruct (lookup_code code pos Hpos) as [b Hb].
      apply (result_span code Hgo fuel Hfuel pos b0 b bits Hreach Hb Hres). }
  intros pos Hpos. specialize (Hiff pos Hpos).
  rewrite (codeSegment_in_code code bits pos Hsize) by lia.
  destruct (bit bits pos); simpl; split; split; intros H;
    try reflexivity; try discriminate.
  - apply Hiff in H. discriminate.
  - intros Hev. apply Hiff in Hev. discriminate.
  - apply Hiff. reflexivity.
  - exfalso. apply H. apply Hiff. reflexivity.
Qed.

Lemma instruction_starts_are_evaluated_witness :
  ∃ bits, codeBitmap 3 [bPUSH1; xff; bJUMPDEST] = Ret bits ∧
    ∀ pos, 0 ≤ pos < len [bPUSH1; xff; bJUMPDEST] →
      (codeSegment bits pos = Ret true ↔ evaluated [bPUSH1; xff; bJUMPDEST] pos) ∧
      (codeSegment bits pos = Ret false ↔ ¬ evaluated [bPUSH1; xff; bJUMPDEST] pos).
Proof.
  apply (instruction_starts_are_evaluated [bPUSH1; xff; bJUMPDEST] 3);
    [reflexivity | simpl; lia].
Defined.

(** ** Appending to a code *)

Lemma len_app (c1 c2 : list byte) : len (c1 ++ c2) = len c1 + len c2.
Proof. unfold len. rewrite length_app. lia. Qed.

Lemma scanned_app_l (c1 c2 : list byte) pc :
  scanned c1 pc → scanned (c1 ++ c2) pc.
Proof.
  induction 1 as [|pc b Hs IH Hb]; [apply scanned_first|].
  apply scanned_next; [exact IH|]. apply lookup_app_l_Some. exact Hb.
Qed.

Lemma scanned_app_below (c1 c2 : list byte) pc :
  scanned (c1 ++ c2) pc → pc < len c1 → scanned c1 pc.
Proof.
  induction 1 as [|pc b Hs IH Hb]; intros Hlt; [apply scanned_first|].
  pose proof (scanned_nonneg _ _ Hs) as Hpc.
  pose proof (push_width_range (op_of b)) as Hw.
  apply scanned_next; [apply IH; lia|].
  rewrite lookup_app_l in Hb by (unfold len in Hlt; lia). exact Hb.
Qed.

Lemma data_offset_app_below (c1 c2 : list byte) i :
  i < len c1 → data_offset (c1 ++ c2) i ↔ data_offset c1 i.
Proof.
  intros Hi. split; intros (pc & b & Hs & Hb & Hspan).
  - pose proof (scanned_nonneg _ _ Hs) as Hpc.
    exists pc, b. split; [apply (scanned_app_below c1 c2); [exact Hs|lia]|].
    split; [|exact Hspan].
    rewrite lookup_app_l in Hb by (unfold len in Hi; lia). exact Hb.
  - exists pc, b. split; [apply scanned_app_l; exact Hs|].
    split; [apply lookup_app_l_Some; exact Hb|exact Hspan].
Qed.

(** X9.  Appending bytes to a code never changes the classification of
    the offsets it already had: on [c1 ++ c2] the query answers as on
    [c1] at every offset below [len(c1)], also when [c1] ends inside a
    push. *)
Theorem append_keeps_classification (c1 c2 : list byte) (fuel1 fuel12 : nat) :
  len (c1 ++ c2) < 2 ^ 63 →
  (length c1 ≤ fuel1)%nat → (length (c1 ++ c2) ≤ fuel12)%nat →
  ∃ bits1 bits12,
    codeBitmap fuel1 c1 = Ret bits1 ∧
    codeBitmap fuel12 (c1 ++ c2) = Ret bits12 ∧
    ∀ pos, 0 ≤ pos < len c1 → codeSegment bits12 pos = codeSegment bits1 pos.
Proof.
  intros Hgo12 Hf1 Hf12.
  assert (len c1 < 2 ^ 63) as Hgo1 by (rewrite len_app in Hgo12; unfold len in *; lia).
  destruct (codeBitmap_returns c1 Hgo1 fuel1 Hf1) as [bits1 Hres1].
  destruct (codeBitmap_returns (c1 ++ c2) Hgo12 fuel12 Hf12) as [bits12 Hres12].
  exists bits1, bits12. split; [exact Hres1|]. split; [exact Hres12|].
  intros pos Hpos.
  rewrite (codeSegment_in_code c1 bits1 pos (result_length c1 Hgo1 fuel1 Hf1 _ Hres1)) by lia.
  rewrite (codeSegment_in_code (c1 ++ c2) bits12 pos
             (result_length _ Hgo12 fuel12 Hf12 _ Hres12))
    by (rewrite len_app; unfold len in *; lia).
  pose proof (result_bit_data c1 Hgo1 fuel1 Hf1 bits1 pos Hres1 (proj1 Hpos)) as H1.
  pose proof (result_bit_data _ Hgo12 fuel12 Hf12 bits12 pos Hres12 (proj1 Hpos)) as H12.
  pose proof (data_offset_app_below c1 c2 pos (proj2 Hpos)) as Happ.
  destruct (bit bits1 pos), (bit bits12 pos); try reflexivity; exfalso.
  - assert (false = true) by (apply H12, Happ, H1; reflexivity). discriminate.
  - assert (false = true) by (apply H1, Happ, H12; reflexivity). discriminate.
Qed.

Lemma append_keeps_classification_witness :
  ∃ bits1 bits12,
    codeBitmap 1 [bPUSH32] = Ret bits1 ∧
    codeBitmap 3 ([bPUSH32] ++ [bJUMPDEST; bSTOP]) = Ret bits12 ∧
    ∀ pos, 0 ≤ pos < len [bPUSH32] → codeSegment bits12 pos = codeSegment bits1 pos.
Proof.
  apply (append_keeps_classification [bPUSH32] [bJUMPDEST; bSTOP] 1 3);
    [reflexivity | simpl; lia | simpl; lia].
Defined.

(** ** Concatenation at an instruction boundary *)

Lemma run_prefix code m : ∀ pc bits p1 b1,
  run code m pc bits p1 b1 →
  ∀ m' p2 b2, run code m' pc bits p2 b2 → (m ≤ m')%nat →
  run code (m' - m) p1 b1 p2 b2.
Proof.
  induction m as [|m IH]; intros pc bits p1 b1 H1 m' p2 b2 H2 Hle.
  - inversion H1; subst. rewrite Nat.sub_0_r. exact H2.
  - inversion H1 as [|? ? ? pa ba ? ? Hlt Hbody Hrest]; subst.
    inversion H2 as [|m'' ? ? pa' ba' ? ? Hlt' Hbody' Hrest']; subst; [lia|].
    rewrite Hbody in Hbody'. injection Hbody' as <- <-.
    simpl. apply (IH _ _ _ _ Hrest _ _ _ Hrest'). lia.
Qed.

Section Chain.

Variable code : list byte.
Hypothesis go_len : len code < 2 ^ 63.

(** Cursor positions do not overlap: the next position after [p] is the
    first one above [p]. *)
Lemma scanned_chain p q b :
  scanned code p → scanned code q → p < q →
  code !! Z.to_nat p = Some b → p + push_width (op_of b) + 1 ≤ q.
Proof.
  intros Hp Hq Hlt Hb.
  destruct (scanned_reach code go_len p Hp) as [bp [m Hm]].
  destruct (scanned_reach code go_len q Hq) as [bq [m' Hm']].
  assert (reach code p bp) as Hrp by (exists m; exact Hm).
  assert (reach code q bq) as Hrq by (exists m'; exact Hm').
  destruct (Nat.le_gt_cases m' m) as [Hle|Hgt].
  - pose proof (run_prefix code m' _ _ _ _ Hm' _ _ _ Hm Hle) as Hback.
    destruct (run_inv code go_len _ _ _ _ _ Hback (reach_inv code go_len _ _ Hrq))
      as (_ & Hfwd & _). lia.
  - pose proof (run_prefix code m _ _ _ _ Hm _ _ _ Hm' ltac:(lia)) as Hfwd.
    destruct (m' - m)%nat as [|k] eqn:Hk; [lia|].
    inversion Hfwd as [|? ? ? p1 b1 ? ? Hlt1 Hbody Hrest]; subst.
    destruct (step_shape code go_len _ _ _ _ (reach_inv code go_len _ _ Hrp) Hlt1 Hbody)
      as (b' & Hb' & -> & _ & Hinv1).
    rewrite Hb in Hb'. injection Hb' as <-.
    destruct (run_inv code go_len _ _ _ _ _ Hrest Hinv1) as (_ & Hstep & _). lia.
Qed.

End Chain.

Section Concat.

Variables c1 c2 : list byte.
Hypothesis go_len : len (c1 ++ c2) < 2 ^ 63.

(** The scan of [c1] reaches [len(c1)] exactly: [c1] ends with a whole
    instruction. *)
Hypothesis boundary : scanned c1 (len c1).

Lemma go_len_l : len c1 < 2 ^ 63.
Proof. rewrite len_app in go_len. unfold len in *. lia. Qed.

Lemma scanned_app_r q : scanned c2 q → scanned (c1 ++ c2) (len c1 + q).
Proof.
  induction 1 as [|q b Hs IH Hb].
  - rewrite Z.add_0_r. apply scanned_app_l. exact boundary.
  - pose proof (scanned_nonneg _ _ Hs) as Hq.
    replace (len c1 + (q + push_width (op_of b) + 1))
      with (len c1 + q + push_width (op_of b) + 1) by lia.
    apply scanned_next; [exact IH|].
    rewrite lookup_app_r by (unfold len; lia).
    replace (Z.to_nat (len c1 + q) - length c1)%nat with (Z.to_nat q)
      by (unfold len; lia).
    exact Hb.
Qed.

Lemma scanned_app_split pc :
  scanned (c1 ++ c2) pc →
  (pc ≤ len c1 ∧ scanned c1 pc) ∨ (len c1 ≤ pc ∧ scanned c2 (pc - len c1)).
Proof.
  induction 1 as [|pc b Hs IH Hb].
  - left. split; [unfold len; lia|apply scanned_first].
  - pose proof (scanned_nonneg _ _ Hs) as Hpc.
    pose proof (push_width_range (op_of b)) as Hw.
    destruct IH as [[Hle H1]|[Hge H2]].
    + destruct (Z.eq_dec pc (len c1)) as [->|Hne].
      * right. split; [lia|].
        rewrite lookup_app_r in Hb by (unfold len; lia).
        replace (Z.to_nat (len c1) - length c1)%nat with (Z.to_nat 0) in Hb
          by (unfold len; lia).
        replace (len c1 + push_width (op_of b) + 1 - len c1)
          with (0 + push_width (op_of b) + 1) by lia.
        apply scanned_next; [apply scanned_first|exact Hb].
      * left. rewrite lookup_app_l in Hb by (unfold len in *; lia).
        split; [|apply scanned_next; assumption].
        apply (scanned_chain c1 go_len_l pc (len c1) b); [exact H1|exact boundary|lia|exact Hb].
    + right. split; [lia|].
      rewrite lookup_app_r in Hb by (unfold len in *; lia).
      replace (Z.to_nat pc - length c1)%nat with (Z.to_nat (pc - len c1)) in Hb
        by (unfold len in *; lia).
      replace (pc + push_width (op_of b) + 1 - len c1)
        with (pc - len c1 + push_width (op_of b) + 1) by lia.
      apply scanned_next; assumption.
Qed.

Lemma data_offset_app_above j :
  0 ≤ j → data_offset (c1 ++ c2) (len c1 + j) ↔ data_offset c2 j.
Proof.
  intros Hj. split; intros (pc & b & Hs & Hb & Hspan).
  - pose proof (scanned_nonneg _ _ Hs) as Hpc.
    destruct (scanned_app_split pc Hs) as [[Hle H1]|[Hge H2]].
    + destruct (Z.eq_dec pc (len c1)) as [->|Hne].
      * exists 0, b. split; [apply scanned_first|].
        rewrite lookup_app_r in Hb by (unfold len; lia).
        replace (Z.to_nat (len c1) - length c1)%nat with (Z.to_nat 0) in Hb
          by (unfold len; lia).
        split; [exact Hb|lia].
      * exfalso. rewrite lookup_app_l in Hb by (unfold len in *; lia).
        pose proof (scanned_chain c1 go_len_l pc (len c1) b H1 boundary ltac:(lia) Hb).
        lia.
    + exists (pc - len c1), b. split; [exact H2|].
      rewrite lookup_app_r in Hb by (unfold len in *; lia).
      replace (Z.to_nat pc - length c1)%nat with (Z.to_nat (pc - len c1)) in Hb
        by (unfold len in *; lia).
      split; [exact Hb|lia].
  - pose proof (scanned_nonneg _ _ Hs) as Hpc.
    exists (len c1 + pc), b. split; [apply scanned_app_r; exact Hs|].
    split; [|lia].
    rewrite lookup_app_r by (unfold len; lia).
    replace (Z.to_nat (len c1 + pc) - length c1)%nat with (Z.to_nat pc)
      by (unfold len; lia).
    exact Hb.
Qed.

End Concat.

(** X10.  If the scan of [c1] ends exactly at [len(c1)] (its last
    instruction is whole), then on [c1 ++ c2] the offsets of [c2] are
    classified as in [c2] alone: the query at [len(c1) + j] answers as
    the query at [j] on the result for [c2]. *)
Theorem concat_at_boundary (c1 c2 : list byte) (fuel2 fuel12 : nat) :
  len (c1 ++ c2) < 2 ^ 63 →
  (∃ bits, reach c1 (len c1) bits) →
  (length c2 ≤ fuel2)%nat → (length (c1 ++ c2) ≤ fuel12)%nat →
  ∃ bits2 bits12,
    codeBitmap fuel2 c2 = Ret bits2 ∧
    codeBitmap fuel12 (c1 ++ c2) = Ret bits12 ∧
    ∀ j, 0 ≤ j < len c2 →
      codeSegment bits12 (len c1 + j) = codeSegment bits2 j.
Proof.
  intros Hgo12 [b1 Hreach] Hf2 Hf12.
  assert (len c1 < 2 ^ 63) as Hgo1 by (rewrite len_app in Hgo12; unfold len in *; lia).
  assert (len c2 < 2 ^ 63) as Hgo2 by (rewrite len_app in Hgo12; unfold len in *; lia).
  pose proof (reach_scanned c1 Hgo1 _ _ Hreach) as Hboundary.
  destruct (codeBitmap_returns c2 Hgo2 fuel2 Hf2) as [bits2 Hres2].
  destruct (codeBitmap_returns (c1 ++ c2) Hgo12 fuel12 Hf12) as [bits12 Hres12].
  exists bits2, bits12. split; [exact Hres2|]. split; [exact Hres12|].
  intros j Hj.
  assert (0 ≤ len c1) by (unfold len; lia).
  rewrite (codeSegment_in_code c2 bits2 j (result_length c2 Hgo2 fuel2 Hf2 _ Hres2)) by lia.
  rewrite (codeSegment_in_code (c1 ++ c2) bits12 (len c1 + j)
             (result_length _ Hgo12 fuel12 Hf12 _ Hres12))
    by (rewrite len_app; lia).
  pose proof (result_bit_data c2 Hgo2 fuel2 Hf2 bits2 j Hres2 (proj1 Hj)) as H2.
  pose proof (result_bit_data _ Hgo12 fuel12 Hf12 bits12 (len c1 + j) Hres12 ltac:(lia))
    as H12.
  pose proof (data_offset_app_above c1 c2 Hgo12 Hboundary j (proj1 Hj)) as Happ.
  destruct (bit bits2 j), (bit bits12 (len c1 + j)); try reflexivity; exfalso.
  - assert (false = true) by (apply H12, Happ, H2; reflexivity). discriminate.
  - assert (false = true) by (apply H2, Happ, H12; reflexivity). discriminate.
Qed.

Lemma concat_at_boundary_witness :
  ∃ bits2 bits12,
    codeBitmap 2 [bPUSH1; bJUMPDEST] = Ret bits2 ∧
    codeBitmap 4 ([bPUSH1; xff] ++ [bPUSH1; bJUMPDEST]) = Ret bits12 ∧
    ∀ j, 0 ≤ j < len [bPUSH1; bJUMPDEST] →
      codeSegment bits12 (len [bPUSH1; xff] + j) = codeSegment bits2 j.
Proof.
  apply (concat_at_boundary [bPUSH1; xff] [bPUSH1; bJUMPDEST] 2 4).
  - reflexivity.
  - exists [2; 0; 0; 0; 0], 1%nat.
    eapply run_iter; [reflexivity | reflexivity | apply run_stop].
  - simpl; lia.
  - simpl; lia.
Defined.

(** ** The scan on a vector that is not zeroed *)



















(** ** The query beyond the code *)

(** X13.  [codeSegment] does not know [len(code)].  On the result of
    [codeBitmap] it panics exactly from offset [8 * (len(code)/8 + 1 + 4)]
    on.  In the padding below that it answers: "data" exactly for the
    offsets in the declared span of an evaluated push that runs past the
    end of the code, and never "data" from offset [len(code) + 32] on. *)
Theorem codeSegment_beyond_code (code : list byte) (fuel : nat) :
  len code < 2 ^ 63 → (length code ≤ fuel)%nat →
  ∃ bits, codeBitmap fuel code = Ret bits ∧
    (∀ pos, 8 * (len code / 8 + 1 + 4) ≤ pos → codeSegment bits pos = Panic) ∧
    (∀ pos, len code ≤ pos < 8 * (len code / 8 + 1 + 4) →
       (codeSegment bits pos = Ret false ↔
        ∃ pc b, evaluated code pc ∧ code !! Z.to_nat pc = Some b ∧
                pc + 1 ≤ pos ≤ pc + push_width (op_of b)) ∧
       (codeSegment bits pos = Ret true ∨ codeSegment bits pos = Ret false) ∧
       (len code + 32 ≤ pos → codeSegment bits pos = Ret true)).
Proof.
  intros Hgo Hfuel.
  destruct (codeBitmap_returns code Hgo fuel Hfuel) as [bits Hres].
  exists bits. split; [exact Hres|].
  pose proof (result_length code Hgo fuel Hfuel bits Hres) as Hsize.
  assert (0 ≤ len code) as Hlen0 by (unfold len; lia).
  assert (0 ≤ len code / 8) by (apply Z.div_pos; lia).
  split.
  - intros pos Hpos. rewrite codeSegment_cases by lia.
    assert (len code / 8 + 1 + 4 ≤ pos / 8) by (apply Z.div_le_lower_bound; lia).
    destruct (Z.ltb_spec (pos / 8) (Z.of_nat (length bits))); [lia|reflexivity].
  - intros pos Hpos.
    assert (pos / 8 < len code / 8 + 1 + 4) by (apply Z.div_lt_upper_bound; lia).
    rewrite (codeSegment_bit bits pos) by lia.
    pose proof (result_bit_data code Hgo fuel Hfuel bits pos Hres ltac:(lia)) as Hdata.
    split; [|split].
    + split.
      * intros Hq. assert (bit bits pos = true) as Hset
          by (destruct (bit bits pos); [reflexivity|discriminate]).
        apply Hdata in Hset. destruct Hset as (pc & b & Hs & Hb & Hspan).
        exists pc, b. split; [|split; assumption].
        split; [rewrite (u64_len code Hgo);
                apply (lookup_code_lt code pc b (scanned_nonneg _ _ Hs) Hb)|].
        apply (scanned_reach code Hgo pc Hs).
      * intros (pc & b & [_ [b0 Hreach]] & Hb & Hspan).
        assert (bit bits pos = true) as Hset.
        { apply Hdata. exists pc, b.
          split; [apply (reach_scanned code Hgo _ _ Hreach)|]. split; assumption. }
        rewrite Hset. reflexivity.
    + destruct (bit bits pos); [right|left]; reflexivity.
    + intros Hfar.
      destruct (result_reach code Hgo fuel Hfuel bits Hres) as (pcf & Hreach & _).
      destruct (reach_inv code Hgo _ _ Hreach) as ((_ & Hpcf) & _ & Hclear).
      rewrite Hclear by lia. reflexivity.
Qed.

Lemma codeSegment_beyond_code_witness :
  ∃ bits, codeBitmap 1 [bPUSH32] = Ret bits ∧
    (∀ pos, 8 * (len [bPUSH32] / 8 + 1 + 4) ≤ pos → codeSegment bits pos = Panic) ∧
    (∀ pos, len [bPUSH32] ≤ pos < 8 * (len [bPUSH32] / 8 + 1 + 4) →
       (codeSegment bits pos = Ret false ↔
        ∃ pc b, evaluated [bPUSH32] pc ∧ [bPUSH32] !! Z.to_nat pc = Some b ∧
                pc + 1 ≤ pos ≤ pc + push_width (op_of b)) ∧
       (codeSegment bits pos = Ret true ∨ codeSegment bits pos = Ret false) ∧
       (len [bPUSH32] + 32 ≤ pos → codeSegment bits pos = Ret true)).
Proof.
  apply (codeSegment_beyond_code [bPUSH32] 1); [reflexivity | simpl; lia].
Defined.

(** ** The order of [set1] *)


Lemma set1_short (bits : BitVec) pos :
  0 ≤ pos → Z.of_nat (length bits) ≤ pos / 8 → set1 bits pos = Panic.
Proof.
  intros Hpos Hout. unfold set1. apply or_store_panic; [apply Z.div_pos; lia|exact Hout].
Qed.


(** * The code on a memory of arrays *)

(** ** Sanity checks *)

(** [codeBitmap] on a memory that holds the code in array 0: the result
    is a new array, and array 0 is as it was. *)
Example mem_scenario_A :
  Mem.codeBitmap 3 (Mem.Slice 0 0 3) [[96; 255; 91]]
  = ([[96; 255; 91]; [2; 0; 0; 0; 0]], Ret (Mem.Slice 1 0 5)).
Proof. vm_compute. reflexivity. Qed.

(** [codeBitmapInternal] with the code array itself as the vector: the
    scan writes the code it reads. *)
Example mem_aliased :
  Mem.codeBitmapInternal 8 (Mem.Slice 0 0 8) (Mem.Slice 0 0 8)
    [[96; 0; 0; 0; 0; 0; 0; 0]]
  = ([[98; 0; 0; 0; 0; 0; 0; 0]], Ret (Mem.Slice 0 0 8)).
Proof. vm_compute. reflexivity. Qed.

(** A panic keeps the writes made before it. *)
Example mem_panic_keeps_writes :
  Mem.set8 (Mem.Slice 0 0 1) 0 [[0]] = ([[255]], Panic).
Proof. vm_compute. reflexivity. Qed.

(** ** Runs on the memory and runs on lists *)

Lemma frame_refl r (h : Mem.heap) : Mem.frame r h h.
Proof. split; [reflexivity|]. intros a _. reflexivity. Qed.

Lemma frame_trans r (h1 h2 h3 : Mem.heap) :
  Mem.frame r h1 h2 → Mem.frame r h2 h3 → Mem.frame r h1 h3.
Proof.
  intros [Hl1 H1] [Hl2 H2]. split; [congruence|].
  intros a Ha. rewrite H2, H1 by exact Ha. reflexivity.
Qed.

Lemma frame_insert r (h : Mem.heap) (arr : list Z) : Mem.frame r h (<[r := arr]> h).
Proof.
  split; [apply length_insert|]. intros a Ha.
  apply list_lookup_insert_ne. congruence.
Qed.

Lemma whole_insert (h : Mem.heap) b (bits bits' : list Z) :
  Mem.whole h b bits → length bits' = length bits →
  Mem.whole (<[Mem.base b := bits']> h) b bits'.
Proof.
  intros (Hb & Hoff & Hext) Hl. split; [|split; [exact Hoff|congruence]].
  apply list_lookup_insert_eq. apply lookup_lt_Some in Hb. exact Hb.
Qed.

Lemma agrees_ret {A X : Type} b (h : Mem.heap) (bits : list Z)
    (a : A) (x : X) (val : X → A) (vec : X → list Z) :
  Mem.whole h b bits → val x = a → vec x = bits →
  Mem.agrees b h bits (Mem.ret a h) (Ret x) val vec.
Proof.
  intros Hw Hval Hvec. split; [apply frame_refl|]. split.
  - exists bits. split; [exact Hw|reflexivity].
  - simpl. split; [congruence|]. rewrite Hvec. apply Hw.
Qed.

Lemma agrees_bind {A B X Y : Type} b (h : Mem.heap) (bits : list Z)
    (m : Mem.M A) (k : A → Mem.M B) (p : outcome X) (kp : X → outcome Y)
    (val : X → A) (vec : X → list Z) (val' : Y → B) (vec' : Y → list Z) :
  Mem.agrees b h bits (m h) p val vec →
  (∀ x h1, p = Ret x → Mem.whole h1 b (vec x) → length (vec x) = length bits →
           Mem.frame (Mem.base b) h h1 →
           Mem.agrees b h1 (vec x) (k (val x) h1) (kp x) val' vec') →
  Mem.agrees b h bits (Mem.bind m k h) (bind p kp) val' vec'.
Proof.
  unfold Mem.bind. intros (Hf & (b1 & Hw1 & Hl1) & Hres) Hk.
  destruct (m h) as [h1 o]. simpl in *.
  destruct p as [x| |]; simpl in *.
  - destruct Hres as [-> Hvec].
    assert (b1 = vec x) as -> by (destruct Hw1 as (Hb1 & _); congruence).
    destruct (Hk x h1 eq_refl Hw1 Hl1 Hf) as (Hf2 & (b2 & Hw2 & Hl2) & Hres2).
    split; [eapply frame_trans; eassumption|]. split; [|exact Hres2].
    exists b2. split; [exact Hw2|congruence].
  - subst o. split; [exact Hf|]. split; [|reflexivity].
    exists b1. split; assumption.
  - subst o. split; [exact Hf|]. split; [|reflexivity].
    exists b1. split; assumption.
Qed.

Lemma agrees_index b (h : Mem.heap) (bits : list Z) i :
  Mem.whole h b bits →
  Mem.agrees b h bits (Mem.index b i h) (load bits i) id (λ _, bits).
Proof.
  intros Hw. pose proof Hw as (Hb & Hoff & Hext).
  unfold Mem.index, load, Mem.len, Mem.address. rewrite Hb, Hoff, Hext. simpl.
  destruct (Z.ltb_spec i (Z.of_nat (length bits))) as [Hlt|Hge].
  - destruct (bits !! Z.to_nat i) as [v|] eqn:Hv.
    + apply agrees_ret; [exact Hw|reflexivity|reflexivity].
    + split; [apply frame_refl|]. split; [|reflexivity].
      exists bits. split; [exact Hw|reflexivity].
  - rewrite (lookup_ge_None_2 bits (Z.to_nat i)) by lia.
    split; [apply frame_refl|]. split; [|reflexivity].
    exists bits. split; [exact Hw|reflexivity].
Qed.

Lemma agrees_assign b (h : Mem.heap) (bits : list Z) i v :
  Mem.whole h b bits →
  Mem.agrees b h bits (Mem.assign b i v h) (store bits i v) (λ _, tt) id.
Proof.
  intros Hw. pose proof Hw as (Hb & Hoff & Hext).
  unfold Mem.assign, store, Mem.len, Mem.address. rewrite Hb, Hoff, Hext. simpl.
  destruct (Z.ltb_spec i (Z.of_nat (length bits))) as [Hlt|Hge].
  - destruct (bool_decide (Z.to_nat i < length bits)%nat) eqn:Hin.
    + split; [apply frame_insert|]. split.
      * eexists. split; [apply (whole_insert h b bits); [exact Hw|]|];
          apply length_insert.
      * simpl. split; [reflexivity|].
        apply list_lookup_insert_eq. apply lookup_lt_Some in Hb. exact Hb.
    + split; [apply frame_refl|]. split; [|reflexivity].
      exists bits. split; [exact Hw|reflexivity].
  - rewrite bool_decide_eq_false_2 by lia.
    split; [apply frame_refl|]. split; [|reflexivity].
    exists bits. split; [exact Hw|reflexivity].
Qed.

Lemma agrees_fail {A X : Type} b (h : Mem.heap) (bits : list Z)
    (o : outcome A) (p : outcome X) (val : X → A) (vec : X → list Z) :
  Mem.whole h b bits →
  (o = Panic ∧ p = Panic) ∨ (o = OutOfFuel ∧ p = OutOfFuel) →
  Mem.agrees b h bits (h, o) p val vec.
Proof.
  intros Hw Hop. split; [apply frame_refl|]. split.
  - exists bits. split; [exact Hw|reflexivity].
  - destruct Hop as [[-> ->]|[-> ->]]; reflexivity.
Qed.

Lemma agrees_or_assign b (h : Mem.heap) (bits : list Z) i v :
  Mem.whole h b bits →
  Mem.agrees b h bits (Mem.or_assign b i v h) (or_store bits i v) (λ _, tt) id.
Proof.
  intros Hw. unfold Mem.or_assign, or_store.
  eapply agrees_bind; [apply agrees_index; exact Hw|].
  intros x h1 _ Hw1 _ _. apply agrees_assign. exact Hw1.
Qed.

Lemma agrees_set1 b (h : Mem.heap) (bits : list Z) pos :
  Mem.whole h b bits →
  Mem.agrees b h bits (Mem.set1 b pos h) (set1 bits pos) (λ _, tt) id.
Proof. intros Hw. apply agrees_or_assign. exact Hw. Qed.

Lemma agrees_setN b (h : Mem.heap) (bits : list Z) flag pos :
  Mem.whole h b bits →
  Mem.agrees b h bits (Mem.setN b flag pos h) (setN bits flag pos) (λ _, tt) id.
Proof.
  intros Hw. unfold Mem.setN, setN. cbv zeta.
  eapply agrees_bind; [apply agrees_or_assign; exact Hw|].
  intros x h1 _ Hw1 _ _. cbv beta.
  destruct (u8 (Z.shiftr (u16 (Z.shiftl flag (pos mod 8))) 8) =? 0).
  - apply agrees_ret; [exact Hw1|reflexivity|reflexivity].
  - apply agrees_assign. exact Hw1.
Qed.

Lemma agrees_set8 b (h : Mem.heap) (bits : list Z) pos :
  Mem.whole h b bits →
  Mem.agrees b h bits (Mem.set8 b pos h) (set8 bits pos) (λ _, tt) id.
Proof.
  intros Hw. unfold Mem.set8, set8. cbv zeta.
  eapply agrees_bind; [apply agrees_or_assign; exact Hw|].
  intros x h1 _ Hw1 _ _. apply agrees_assign. exact Hw1.
Qed.

Lemma agrees_set16 b (h : Mem.heap) (bits : list Z) pos :
  Mem.whole h b bits →
  Mem.agrees b h bits (Mem.set16 b pos h) (set16 bits pos) (λ _, tt) id.
Proof.
  intros Hw. unfold Mem.set16, set16. cbv zeta.
  eapply agrees_bind; [apply agrees_or_assign; exact Hw|].
  intros x h1 _ Hw1 _ _.
  eapply agrees_bind; [apply agrees_assign; exact Hw1|].
  intros y h2 _ Hw2 _ _. apply agrees_assign. exact Hw2.
Qed.

Lemma agrees_loop16 b fuel : ∀ (h : Mem.heap) (bits : list Z) numbits pc,
  Mem.whole h b bits →
  Mem.agrees b h bits (Mem.loop16 fuel numbits pc b h) (loop16 fuel numbits pc bits)
    (λ x, (x.1.1, x.1.2)) snd.
Proof.
  induction fuel as [|fuel IH]; intros h bits numbits pc Hw; simpl;
    destruct (16 <=? numbits).
  - apply agrees_fail; [exact Hw|right; split; reflexivity].
  - apply agrees_ret; [exact Hw|reflexivity|reflexivity].
  - eapply agrees_bind; [apply agrees_set16; exact Hw|].
    intros x h1 _ Hw1 _ _. apply IH. exact Hw1.
  - apply agrees_ret; [exact Hw|reflexivity|reflexivity].
Qed.

Lemma agrees_loop8 b fuel : ∀ (h : Mem.heap) (bits : list Z) numbits pc,
  Mem.whole h b bits →
  Mem.agrees b h bits (Mem.loop8 fuel numbits pc b h) (loop8 fuel numbits pc bits)
    (λ x, (x.1.1, x.1.2)) snd.
Proof.
  induction fuel as [|fuel IH]; intros h bits numbits pc Hw; simpl;
    destruct (8 <=? numbits).
  - apply agrees_fail; [exact Hw|right; split; reflexivity].
  - apply agrees_ret; [exact Hw|reflexivity|reflexivity].
  - eapply agrees_bind; [apply agrees_set8; exact Hw|].
    intros x h1 _ Hw1 _ _. apply IH. exact Hw1.
  - apply agrees_ret; [exact Hw|reflexivity|reflexivity].
Qed.

Lemma agrees_switch b (h : Mem.heap) (bits : list Z) numbits pc :
  Mem.whole h b bits →
  Mem.agrees b h bits (Mem.switch_numbits numbits pc b h)
    (switch_numbits numbits pc bits) fst snd.
Proof.
  intros Hw. unfold Mem.switch_numbits, switch_numbits.
  repeat match goal with
    | |- context [if ?c then _ else _] => destruct c
    end;
    try (apply agrees_ret; [exact Hw|reflexivity|reflexivity]);
    (eapply agrees_bind; [first [apply agrees_set1 | apply agrees_setN]; exact Hw|]);
    intros x h1 _ Hw1 _ _;
    (apply agrees_ret; [exact Hw1|reflexivity|reflexivity]).
Qed.

(** Reading the code through its slice. *)
Lemma index_code (h : Mem.heap) c (code : list byte) pc :
  Mem.holds h c code → 0 ≤ pc →
  Mem.index c pc h
  = (h, match code !! Z.to_nat pc with
        | Some b => Ret (op_of b)
        | None => Panic
        end).
Proof.
  intros (Hlen & Hoff & arr & Harr & Hview) Hpc.
  unfold Mem.index, Mem.address. rewrite Hlen, Harr.
  destruct (Z.ltb_spec pc (Z.of_nat (length code))) as [Hlt|Hge].
  - rewrite (Hview (Z.to_nat pc)) by lia.
    destruct (code !! Z.to_nat pc); reflexivity.
  - rewrite (lookup_ge_None_2 code (Z.to_nat pc)) by lia. reflexivity.
Qed.

Lemma holds_frame (h h' : Mem.heap) c (code : list byte) r :
  Mem.holds h c code → Mem.frame r h h' → Mem.base c ≠ r → Mem.holds h' c code.
Proof.
  intros (Hlen & Hoff & arr & Harr & Hview) [_ Hf] Hne.
  split; [exact Hlen|]. split; [exact Hoff|].
  exists arr. split; [|exact Hview]. rewrite Hf by exact Hne. exact Harr.
Qed.

Lemma agrees_loop_body b c (code : list byte) (h : Mem.heap) (bits : list Z) pc :
  Mem.whole h b bits → Mem.holds h c code → 0 ≤ pc →
  Mem.agrees b h bits (Mem.loop_body c b pc h) (loop_body code pc bits) fst snd.
Proof.
  intros Hw Hc Hpc. unfold Mem.loop_body, loop_body, opcode_at.
  unfold Mem.bind at 1. rewrite (index_code h c code pc Hc Hpc).
  destruct (code !! Z.to_nat pc) as [b0|];
    [|apply agrees_fail; [exact Hw|left; split; reflexivity]].
  cbn [bind]. cbv zeta.
  destruct (int8 (Z.of_N (Byte.to_N b0)) <? int8 PUSH1) eqn:Htest;
    fold (op_of b0); rewrite ?Htest.
  - unfold op_of in *. rewrite Htest.
    apply agrees_ret; [exact Hw|reflexivity|reflexivity].
  - unfold op_of in *. rewrite Htest.
    eapply (agrees_bind b h bits _ _ _ _ (λ x, (x.1.1, x.1.2)) snd).
    + destruct (8 <=? u8 (Z.of_N (Byte.to_N b0) - PUSH1 + 1)).
      * eapply agrees_bind; [apply agrees_loop16; exact Hw|].
        intros [[nb1 pc1] bits1] h1 _ Hw1 _ _. apply agrees_loop8. exact Hw1.
      * apply agrees_ret; [exact Hw|reflexivity|reflexivity].
    + intros [[nb2 pc2] bits2] h2 _ Hw2 _ _. apply agrees_switch. exact Hw2.
Qed.

Lemma agrees_scan b c (code : list byte) fuel : ∀ pc (h : Mem.heap) (bits : list Z),
  len code < 2 ^ 63 → scan_inv code pc bits →
  Mem.whole h b bits → Mem.holds h c code → Mem.base c ≠ Mem.base b →
  Mem.agrees b h bits (Mem.scan fuel c b pc h) (scan fuel code pc bits) (λ _, tt) id.
Proof.
  induction fuel as [|fuel IH]; intros pc h bits Hgo Hinv Hw Hc Hne; simpl;
    replace (Mem.len c) with (len code) by (symmetry; apply Hc);
    destruct (Z.ltb_spec pc (u64 (len code))) as [Hlt|Hge].
  - apply agrees_fail; [exact Hw|right; split; reflexivity].
  - apply agrees_ret; [exact Hw|reflexivity|reflexivity].
  - eapply agrees_bind.
    + apply (agrees_loop_body b c code); [exact Hw|exact Hc|apply Hinv].
    + intros [pc1 bits1] h1 Hbody Hw1 _ Hf. simpl.
      destruct (step_shape code Hgo _ _ _ _ Hinv Hlt Hbody) as (_ & _ & _ & _ & Hinv1).
      apply IH; [exact Hgo|exact Hinv1|exact Hw1| |exact Hne].
      apply (holds_frame h h1 c code (Mem.base b)); assumption.
  - apply agrees_ret; [exact Hw|reflexivity|reflexivity].
Qed.

(** [codeBitmap] on the memory: the memory it leaves is the memory it
    found with one array appended, whose content is the vector of the
    list function. *)
Lemma mem_codeBitmap (h : Mem.heap) c (code : list byte) (fuel : nat) (bits : list Z) :
  len code < 2 ^ 63 → Mem.holds h c code →
  codeBitmap fuel code = Ret bits →
  Mem.codeBitmap fuel c h
  = (h ++ [bits], Ret (Mem.Slice (length h) 0 (Z.of_nat (length bits)))).
Proof.
  intros Hgo Hc Hres.
  pose proof Hc as (Hlen & Hoff & arr & Harr & Hview).
  assert (Mem.len c = len code) as Hlenc by exact Hlen.
  unfold Mem.codeBitmap, Mem.bind, Mem.make at 1. rewrite Hlenc.
  fold (make code).
  set (b := Mem.Slice (length h) 0 (len code / 8 + 1 + 4)).
  set (h0 := h ++ [make code]).
  assert (Mem.whole h0 b (make code)) as Hw.
  { split; [|split; [reflexivity|]].
    - unfold h0, b. simpl. rewrite lookup_app_r by lia.
      rewrite Nat.sub_diag. reflexivity.
    - unfold b. simpl. symmetry. apply length_make. }
  assert (Mem.base c < length h)%nat as Hbase by (apply lookup_lt_Some in Harr; exact Harr).
  assert (Mem.holds h0 c code) as Hc0.
  { split; [exact Hlen|]. split; [exact Hoff|]. exists arr. split; [|exact Hview].
    unfold h0. rewrite lookup_app_l by exact Hbase. exact Harr. }
  destruct (agrees_scan b c code fuel 0 h0 (make code) Hgo (scan_inv_make code) Hw Hc0)
    as (Hf & (bits' & Hw' & Hl') & Hout).
  { unfold b. simpl. lia. }
  unfold codeBitmap, codeBitmapInternal in Hres. rewrite Hres in Hout.
  unfold Mem.codeBitmapInternal, Mem.bind.
  destruct (Mem.scan fuel c b 0 h0) as [h1 o]. simpl in *.
  destruct Hout as [-> Hbits]. unfold Mem.ret.
  assert (length bits = length (make code)) as Hlb.
  { destruct Hw' as (Hb' & _). change (Mem.base b) with (length h) in Hb'.
    change (Mem.base b) with (length h) in Hbits.
    rewrite Hbits in Hb'. injection Hb' as <-. exact Hl'. }
  f_equal.
  - destruct Hf as [Hlh Hother].
    apply list_eq. intros a.
    destruct (Nat.eq_dec a (length h)) as [->|Ha].
    + rewrite Hbits. rewrite lookup_app_r by lia. rewrite Nat.sub_diag. reflexivity.
    + rewrite (Hother a Ha). unfold h0.
      destruct (Nat.lt_ge_cases a (length h)) as [Hlt|Hge].
      * rewrite !lookup_app_l by exact Hlt. reflexivity.
      * rewrite !lookup_ge_None_2; [reflexivity| |];
          rewrite length_app; simpl; lia.
  - unfold b. do 2 f_equal. rewrite Hlb. symmetry. apply length_make.
Qed.

(** ** No side effect *)

(** Claim C9.  [codeBitmap] is deterministic, pure and idempotent.  In
    any memory, through any slice that views the bytes [code], a call
    returns; the memory it leaves is the memory it found with one array
    appended, so the code buffer and every other array that existed are
    untouched and the vector is a new array; the content of that array
    depends on the bytes of the code only, not on the memory, the slice
    or the fuel.  A second call on the memory left by the first returns
    the same bytes in another new array.  The array that [make] appends
    is zeroed. *)
Theorem codeBitmap_pure
    (h1 h2 : Mem.heap) (c1 c2 : Mem.slice) (code : list byte) (fuel1 fuel2 : nat) :
  len code < 2 ^ 63 → (length code ≤ fuel1)%nat → (length code ≤ fuel2)%nat →
  Mem.holds h1 c1 code → Mem.holds h2 c2 code →
  ∃ bits,
    codeBitmap fuel1 code = Ret bits ∧
    Mem.codeBitmap fuel1 c1 h1
    = (h1 ++ [bits], Ret (Mem.Slice (length h1) 0 (Z.of_nat (length bits)))) ∧
    Mem.codeBitmap fuel2 c2 h2
    = (h2 ++ [bits], Ret (Mem.Slice (length h2) 0 (Z.of_nat (length bits)))) ∧
    Mem.holds (h1 ++ [bits]) c1 code ∧
    Mem.codeBitmap fuel2 c1 (h1 ++ [bits])
    = ((h1 ++ [bits]) ++ [bits],
       Ret (Mem.Slice (length (h1 ++ [bits])) 0 (Z.of_nat (length bits)))) ∧
    Mem.make (Mem.len c1 / 8 + 1 + 4) h1
    = (h1 ++ [make code], Ret (Mem.Slice (length h1) 0 (len code / 8 + 1 + 4))) ∧
    Forall (λ x, x = 0) (make code).
Proof.
  intros Hgo Hf1 Hf2 Hc1 Hc2.
  destruct (codeBitmap_run code Hgo) as (n & pcf & bits & _ & _ & _ & Hall).
  pose proof (Hall fuel1 Hf1) as Hres1. pose proof (Hall fuel2 Hf2) as Hres2.
  assert (Mem.holds (h1 ++ [bits]) c1 code) as Hc1'.
  { destruct Hc1 as (Hlen & Hoff & arr & Harr & Hview).
    split; [exact Hlen|]. split; [exact Hoff|]. exists arr. split; [|exact Hview].
    apply lookup_app_l_Some. exact Harr. }
  exists bits. split; [exact Hres1|].
  split; [apply (mem_codeBitmap h1 c1 code fuel1 bits Hgo Hc1 Hres1)|].
  split; [apply (mem_codeBitmap h2 c2 code fuel2 bits Hgo Hc2 Hres2)|].
  split; [exact Hc1'|].
  split; [apply (mem_codeBitmap _ c1 code fuel2 bits Hgo Hc1' Hres2)|].
  split.
  - unfold Mem.make. replace (Mem.len c1) with (len code) by (symmetry; apply Hc1).
    reflexivity.
  - unfold make. apply Forall_forall. intros x Hx.
    apply elem_of_replicate in Hx. apply Hx.
Qed.

Lemma codeBitmap_pure_witness :
  ∃ bits,
    codeBitmap 3 [bPUSH1; xff; bJUMPDEST] = Ret bits ∧
    Mem.codeBitmap 3 (Mem.Slice 0 0 3) [[96; 255; 91]]
    = ([[96; 255; 91]] ++ [bits],
       Ret (Mem.Slice (length [[96; 255; 91]]) 0 (Z.of_nat (length bits)))) ∧
    Mem.codeBitmap 5 (Mem.Slice 1 1 3) [[0]; [7; 96; 255; 91; 1]]
    = ([[0]; [7; 96; 255; 91; 1]] ++ [bits],
       Ret (Mem.Slice (length [[0]; [7; 96; 255; 91; 1]]) 0 (Z.of_nat (length bits)))) ∧
    Mem.holds ([[96; 255; 91]] ++ [bits]) (Mem.Slice 0 0 3) [bPUSH1; xff; bJUMPDEST] ∧
    Mem.codeBitmap 5 (Mem.Slice 0 0 3) ([[96; 255; 91]] ++ [bits])
    = (([[96; 255; 91]] ++ [bits]) ++ [bits],
       Ret (Mem.Slice (length ([[96; 255; 91]] ++ [bits])) 0 (Z.of_nat (length bits)))) ∧
    Mem.make (Mem.len (Mem.Slice 0 0 3) / 8 + 1 + 4) [[96; 255; 91]]
    = ([[96; 255; 91]] ++ [make [bPUSH1; xff; bJUMPDEST]],
       Ret (Mem.Slice (length [[96; 255; 91]]) 0 (len [bPUSH1; xff; bJUMPDEST] / 8 + 1 + 4))) ∧
    Forall (λ x, x = 0) (make [bPUSH1; xff; bJUMPDEST]).
Proof.
  apply (codeBitmap_pure [[96; 255; 91]] [[0]; [7; 96; 255; 91; 1]]
           (Mem.Slice 0 0 3) (Mem.Slice 1 1 3) [bPUSH1; xff; bJUMPDEST] 3 5).
  - reflexivity.
  - simpl; lia.
  - simpl; lia.
  - split; [reflexivity|]. split; [simpl; lia|].
    exists [96; 255; 91]. split; [reflexivity|].
    intros [|[|[|i]]] Hi; try reflexivity; simpl in Hi; lia.
  - split; [reflexivity|]. split; [simpl; lia|].
    exists [7; 96; 255; 91; 1]. split; [reflexivity|].
    intros [|[|[|i]]] Hi; try reflexivity; simpl in Hi; lia.
Defined.

(** ** The order of [set1], in place *)





(** The two orders of the witness, computed: [8] and [0]. *)
Example in_place_orders :
  Mem.bind (Mem.set1 (Mem.Slice 0 0 1) 3) (λ _, Mem.set1 (Mem.Slice 0 0 1) 8) [[0]]
  = ([[8]], Panic) ∧
  Mem.bind (Mem.set1 (Mem.Slice 0 0 1) 8) (λ _, Mem.set1 (Mem.Slice 0 0 1) 3) [[0]]
  = ([[0]], Panic).
Proof. split; vm_compute; reflexivity. Qed.
